(** * rb_tree: a shallow embedding of rbtree.c and the properties of its
      insertion, validation and query entry points.

    The C program keeps its nodes in malloc'ed storage and links them with
    raw pointers (parent, left, right).  The embedding keeps that shape:
    a heap maps addresses to node records, every function of rbtree.c is a
    computation over the program state (heap + text written to stdout),
    and the loops and recursions of the file run on fuel.

    An abstract binary tree, [tree], and the representation predicate
    [tree_rep] relate a region of the heap to the tree it stores; the
    general theorems are stated through it. *)

From Stdlib Require Import ZArith Lia.
From stdpp Require Import base gmap strings list infinite.

Open Scope Z_scope.

(** ** rbtree.h *)

(** Pointers (node_t * and the void * keys) are addresses. *)
Abbreviation ptr := Z (only parsing).
Definition NULL : ptr := 0.

(** typedef enum { RED = 1, BLACK } color_t;  a field of this type can hold
    any integer (an uninitialised or corrupted one), hence [Z]. *)
Abbreviation color_t := Z (only parsing).
Definition RED : color_t := 1.
Definition BLACK : color_t := 2.

(** struct node_t, fields in declaration order. *)
Record node_t : Type := mk_node {
  key : ptr;       (* void *key *)
  parent : ptr;    (* node_t *parent *)
  left : ptr;      (* node_t *left *)
  right : ptr;     (* node_t *right *)
  color : color_t  (* color_t color *)
}.

Definition IS_RED (n : node_t) : bool := color n =? RED.
Definition IS_BLACK (n : node_t) : bool := color n =? BLACK.

(** ** rbtree.c: violation flags *)

Definition RB_VALID : Z := 0x00.
Definition RB_INVALID_COLOR : Z := 0x01.
Definition RB_RED_ROOT : Z := 0x02.
Definition RB_NULL_NOT_BLACK : Z := 0x04.
Definition RB_RED_CHILD_OF_RED : Z := 0x08.
Definition RB_UNEQUAL_BLACK_PATHS : Z := 0x10.

(** rb_validation_t is uint32_t. [~RB_VALID] is computed on int and then
    converted to uint32_t for the compound assignment. *)
Definition uint32 (z : Z) : Z := z mod 2 ^ 32.

(** The statement pair  *violations &= ~RB_VALID; *violations |= flag; *)
Definition raise_violation (violations flag : Z) : Z :=
  Z.lor (Z.land violations (uint32 (Z.lnot RB_VALID))) flag.

(** holds rotation types *)
Inductive rotation_t : Type := LEFT | RIGHT.

(** ** Program state and the monad of C computations *)

Record state : Type := mk_state {
  heap : gmap Z node_t;   (* allocated nodes *)
  out : list string       (* lines written by printf, oldest first *)
}.

Inductive result (A : Type) : Type :=
| Done (a : A) (s : state)   (* the call returned a *)
| Aborted (s : state)        (* a failed assert terminated the program *)
| Undefined                  (* undefined behaviour: bad dereference, int overflow *)
| OutOfFuel.                 (* the fuel of a loop ran out *)
Arguments Done {A} a s.
Arguments Aborted {A} s.
Arguments Undefined {A}.
Arguments OutOfFuel {A}.

Definition M (A : Type) : Type := state -> result A.

Definition ret {A} (a : A) : M A := fun s => Done a s.

Definition bind {A B} (m : M A) (k : A -> M B) : M B :=
  fun s =>
    match m s with
    | Done a s' => k a s'
    | Aborted s' => Aborted s'
    | Undefined => Undefined
    | OutOfFuel => OutOfFuel
    end.

Declare Scope c_scope.
Delimit Scope c_scope with c.
Notation "x <- m ;; k" := (bind m (fun x => k))
  (at level 100, m at next level, k at level 200, right associativity) : c_scope.
Notation "m ;; k" := (bind m (fun _ => k))
  (at level 100, k at level 200, right associativity) : c_scope.
Open Scope c_scope.

Definition undef {A} : M A := fun _ => Undefined.
Definition out_of_fuel {A} : M A := fun _ => OutOfFuel.

(** assert(c) with NDEBUG undefined. *)
Definition assert (c : bool) : M unit :=
  fun s => if c then Done tt s else Aborted s.

(** printf of a constant line; the C escape \n is kept as it is written in
    the source. *)
Definition printf (line : string) : M unit :=
  fun s => Done tt (mk_state (heap s) (out s ++ [line])).

(** p->field as an rvalue: p must point to an allocated node. *)
Definition load (p : ptr) : M node_t :=
  fun s => match heap s !! p with
           | Some n => Done n s
           | None => Undefined
           end.

Definition store (p : ptr) (n : node_t) : M unit :=
  fun s => match heap s !! p with
           | Some _ => Done tt (mk_state (<[p := n]> (heap s)) (out s))
           | None => Undefined
           end.

(** p->field = v *)
Definition set_key (p : ptr) (v : ptr) : M unit :=
  n <- load p ;; store p (mk_node v (parent n) (left n) (right n) (color n)).
Definition set_parent (p : ptr) (v : ptr) : M unit :=
  n <- load p ;; store p (mk_node (key n) v (left n) (right n) (color n)).
Definition set_left (p : ptr) (v : ptr) : M unit :=
  n <- load p ;; store p (mk_node (key n) (parent n) v (right n) (color n)).
Definition set_right (p : ptr) (v : ptr) : M unit :=
  n <- load p ;; store p (mk_node (key n) (parent n) (left n) v (color n)).
Definition set_color (p : ptr) (v : color_t) : M unit :=
  n <- load p ;; store p (mk_node (key n) (parent n) (left n) (right n) v).

(** int arithmetic: signed overflow is undefined behaviour. *)
Definition INT_MAX : Z := 2 ^ 31 - 1.
Definition INT_MIN : Z := - 2 ^ 31.
Definition int_incr (x : Z) : M Z :=
  if x <? INT_MAX then ret (x + 1) else undef.
Definition int_decr (x : Z) : M Z :=
  if INT_MIN <? x then ret (x - 1) else undef.

(** ** The functions of rbtree.c *)

Section Rbtree.

(** malloc(sizeof(node_t)) is the environment's: on a heap it either fails
    or hands out an address together with the indeterminate contents of
    the new block. *)
Variable malloc : gmap Z node_t -> option (ptr * node_t).

Definition malloc_node : M ptr :=
  fun s => match malloc (heap s) with
           | None => Done NULL s
           | Some (a, junk) => Done a (mk_state (<[a := junk]> (heap s)) (out s))
           end.

Definition create_node (val : ptr) : M ptr :=
  if val =? NULL then ret NULL
  else
    n <- malloc_node ;;
    if n =? NULL then ret NULL
    else
      set_key n val ;;
      set_left n NULL ;;
      set_right n NULL ;;
      set_parent n NULL ;;
      ret n.

(** The while loop of rb_insert_node ("find insertion point").
    [None]: an equal key was met and the function returned from inside the
    loop; [Some parent]: the loop ended with current == NULL. *)
Fixpoint find_insertion_point (fuel : nat) (newnode current parent : ptr)
  : M (option ptr) :=
  match fuel with
  | O => out_of_fuel
  | S fuel' =>
      if current =? NULL then ret (Some parent)
      else
        n <- load newnode ;;
        c <- load current ;;
        if key n <? key c then
          find_insertion_point fuel' newnode (left c) current
        else if key n >? key c then
          find_insertion_point fuel' newnode (right c) current
        else ret None
  end.

Definition rb_insert_node (fuel : nat) (root newnode : ptr) : M unit :=
  found <- find_insertion_point fuel newnode root NULL ;;
  match found with
  | None => ret tt
  | Some parent =>
      set_parent newnode parent ;;
      n <- load newnode ;;
      p <- load parent ;;
      (if key n <? key p then set_left parent newnode
       else set_right parent newnode) ;;
      set_color newnode RED
  end.

(** The while loop of rb_get_black_height, entered with the current node
    and the running count. *)
Fixpoint black_height_loop (fuel : nat) (curr : ptr) (black_height : Z)
  : M Z :=
  match fuel with
  | O => out_of_fuel
  | S fuel' =>
      c <- load curr ;;
      if negb (left c =? NULL) then
        bh <- (if negb (IS_RED c) then int_incr black_height
               else ret black_height) ;;
        black_height_loop fuel' (left c) bh
      else ret black_height
  end.

Definition rb_get_black_height (fuel : nat) (root : ptr) : M Z :=
  black_height_loop fuel root 0.

Fixpoint rb_validate_black_height (fuel : nat) (root : ptr) (black_height : Z)
  : M bool :=
  match fuel with
  | O => out_of_fuel
  | S fuel' =>
      if root =? NULL then ret (black_height =? 0)
      else
        n <- load root ;;
        bh <- (if negb (IS_RED n) then int_decr black_height
               else ret black_height) ;;
        l <- rb_validate_black_height fuel' (left n) bh ;;
        if l then rb_validate_black_height fuel' (right n) bh
        else ret false
  end.

(** rb_validate_tree_recursive: the two out-parameters are threaded, the
    call returns the final ( *violations, *black_h ). *)
Fixpoint rb_validate_tree_recursive (fuel : nat) (root : ptr)
    (violations : Z) (black_h : Z) : M (Z * Z) :=
  match fuel with
  | O => out_of_fuel
  | S fuel' =>
      if root =? NULL then
        ret (if negb (black_h =? 0)
             then raise_violation violations RB_UNEQUAL_BLACK_PATHS
             else violations, black_h)
      else
        n <- load root ;;
        let violations :=
          if negb (IS_RED n) && negb (IS_BLACK n)
          then raise_violation violations RB_INVALID_COLOR
          else violations in
        black_h <- (if IS_BLACK n then int_decr black_h else ret black_h) ;;
        violations <-
          (if IS_RED n then
             l <- (if negb (left n =? NULL)
                   then c <- load (left n) ;; ret (IS_RED c)
                   else ret false) ;;
             r <- (if l then ret true
                   else if negb (right n =? NULL)
                        then c <- load (right n) ;; ret (IS_RED c)
                        else ret false) ;;
             ret (if r then raise_violation violations RB_RED_CHILD_OF_RED
                  else violations)
           else ret violations) ;;
        let current_black_h := black_h in
        vb <- rb_validate_tree_recursive fuel' (left n) violations black_h ;;
        let black_h := current_black_h in
        rb_validate_tree_recursive fuel' (right n) (fst vb) black_h
  end.

Definition rb_validate_tree (fuel : nat) (root : ptr) : M Z :=
  let violations := RB_VALID in
  if root =? NULL then ret violations
  else
    n <- load root ;;
    (if negb (parent n =? NULL)
     then printf "root node has parent pointer!\n" ;; assert false
     else ret tt) ;;
    black_height <- rb_get_black_height fuel root ;;
    let violations :=
      if IS_RED n then raise_violation violations RB_RED_ROOT
      else violations in
    vb <- rb_validate_tree_recursive fuel root violations black_height ;;
    ret (fst vb).

(** The reporting tail of insert_node: one line per raised flag. *)
Definition report (violations : Z) (flag : Z) (line : string) : M unit :=
  if negb (Z.land violations flag =? 0) then printf line else ret tt.

(** insert_node(node_t **root, void *val); the call returns the value it
    leaves in *root. *)
Definition insert_node (fuel : nat) (root : ptr) (val : ptr) : M ptr :=
  newnode <- create_node val ;;
  assert (negb (newnode =? NULL)) ;;
  if root =? NULL then
    set_color newnode BLACK ;;
    ret newnode
  else
    rb_insert_node fuel root newnode ;;
    violations <- rb_validate_tree fuel root ;;
    if violations =? RB_VALID then
      printf "tree is a valid rb tree\n" ;;
      ret root
    else
      printf "tree validation failed.\n" ;;
      report violations RB_RED_ROOT
        "- root is red (violates property 2)\n" ;;
      report violations RB_RED_CHILD_OF_RED
        "- found red node with red child (violates properties 4/7)\n" ;;
      report violations RB_UNEQUAL_BLACK_PATHS
        "- paths have different number of black nodes (violates property 5)\n" ;;
      report violations RB_INVALID_COLOR
        "- found node with invalid color (violates property 1)\n" ;;
      report violations RB_NULL_NOT_BLACK
        "- found null leaf that isn't black (violates property 3)\n" ;;
      ret root.

(** The three public stubs: their bodies are empty. *)
Definition delete_node (root : ptr) (val : ptr) : M unit := ret tt.
Definition search (n : ptr) (query_key : ptr) : M unit := ret tt.
Definition range_search (n : ptr) (out_list : ptr) (query_key : ptr) : M unit :=
  ret tt.

(** rb_get_uncle_color; the early  return -1  is kept as the integer -1. *)
Definition rb_get_uncle_color (n : ptr) : M color_t :=
  z <- load n ;;
  if parent z =? NULL then ret (-1)
  else
    p <- load (parent z) ;;
    if parent p =? NULL then ret (-1)
    else
      let grandparent := parent p in
      g <- load grandparent ;;
      if left g =? parent z then
        if right g =? NULL then ret BLACK
        else u <- load (right g) ;; ret (color u)
      else
        if left g =? NULL then ret BLACK
        else u <- load (left g) ;; ret (color u).

Definition rb_color_flip (root : ptr) : M unit := ret tt.
Definition rb_rotate (node : ptr) (dir : rotation_t) : M unit := ret tt.

Definition rb_rebalance (node : ptr) : M unit :=
  c <- rb_get_uncle_color node ;;
  if c =? -1 then ret tt
  else if c =? RED then rb_color_flip node
  else
    n <- load node ;;
    rb_rotate (parent n) LEFT.

End Rbtree.

(** ** The comparator-driven insertion of the specification

    Section 4.2 and 6 of the specification describe the descent as driven
    by a comparison function supplied by the caller.  This is that
    insertion, word for word the procedure above except that every key
    comparison is a call of [cmp]; it is what rb_insert_node is compared
    with. *)

Section Comparator.

Variable cmp : ptr -> ptr -> comparison.

Fixpoint locate_insertion_point_by (fuel : nat) (newnode current parent : ptr)
  : M (option ptr) :=
  match fuel with
  | O => out_of_fuel
  | S fuel' =>
      if current =? NULL then ret (Some parent)
      else
        n <- load newnode ;;
        c <- load current ;;
        match cmp (key n) (key c) with
        | Lt => locate_insertion_point_by fuel' newnode (left c) current
        | Gt => locate_insertion_point_by fuel' newnode (right c) current
        | Eq => ret None
        end
  end.

Definition rb_insert_node_by (fuel : nat) (root newnode : ptr) : M unit :=
  found <- locate_insertion_point_by fuel newnode root NULL ;;
  match found with
  | None => ret tt
  | Some parent =>
      set_parent newnode parent ;;
      n <- load newnode ;;
      p <- load parent ;;
      match cmp (key n) (key p) with
      | Lt => set_left parent newnode
      | _ => set_right parent newnode
      end ;;
      set_color newnode RED
  end.

(** What "total-order comparison function" asks of [cmp]. *)
Definition total_order_cmp : Prop :=
  (forall a b, cmp a b = Eq <-> a = b) /\
  (forall a b, cmp b a = CompOpp (cmp a b)) /\
  (forall a b c, cmp a b = Lt -> cmp b c = Lt -> cmp a c = Lt).

End Comparator.

(** The order a caller obtains by reversing the address order. *)
Definition reverse_cmp (a b : ptr) : comparison := b ?= a.

(** ** Abstract trees and their layout in the heap *)

(** A node of the abstract tree records where it lives, its colour field
    and its key; [Leaf] is an absent child. *)
Inductive tree : Type :=
| Leaf
| Node (a : ptr) (c : color_t) (k : ptr) (l r : tree).

Definition root_of (t : tree) : ptr :=
  match t with
  | Leaf => NULL
  | Node a _ _ _ _ => a
  end.

(** [tree_rep h par t]: the heap [h] stores [t] at address [root_of t],
    the parent link of its root being [par]. *)
Fixpoint tree_rep (h : gmap Z node_t) (par : ptr) (t : tree) : Prop :=
  match t with
  | Leaf => True
  | Node a c k l r =>
      a <> NULL /\
      h !! a = Some (mk_node k par (root_of l) (root_of r) c) /\
      tree_rep h a l /\ tree_rep h a r
  end.

Fixpoint height (t : tree) : nat :=
  match t with
  | Leaf => O
  | Node _ _ _ l r => S (Nat.max (height l) (height r))
  end.

(** Keys in symmetric order, and the search-tree ordering on addresses. *)
Fixpoint keys (t : tree) : list ptr :=
  match t with
  | Leaf => []
  | Node _ _ k l r => keys l ++ k :: keys r
  end.

Fixpoint bst (t : tree) : Prop :=
  match t with
  | Leaf => True
  | Node _ _ k l r =>
      bst l /\ bst r /\
      Forall (fun x => x < k) (keys l) /\ Forall (fun x => k < x) (keys r)
  end.

Definition red_root (t : tree) : bool :=
  match t with
  | Leaf => false
  | Node _ c _ _ _ => c =? RED
  end.

(** What rb_get_black_height computes on a stored tree: the non-red nodes
    of the left spine that still have a left child. *)
Fixpoint spine_budget (t : tree) (black_height : Z) : Z :=
  match t with
  | Leaf => black_height
  | Node _ c _ l _ =>
      match l with
      | Leaf => black_height
      | Node _ _ _ _ _ =>
          spine_budget l (if negb (c =? RED) then black_height + 1
                          else black_height)
      end
  end.

(** What rb_validate_tree_recursive computes on a stored tree. *)
Fixpoint walk (t : tree) (violations black_h : Z) : Z * Z :=
  match t with
  | Leaf =>
      (if negb (black_h =? 0)
       then raise_violation violations RB_UNEQUAL_BLACK_PATHS
       else violations, black_h)
  | Node _ c _ l r =>
      let v1 := if negb (c =? RED) && negb (c =? BLACK)
                then raise_violation violations RB_INVALID_COLOR
                else violations in
      let bh := if c =? BLACK then black_h - 1 else black_h in
      let v2 := if (c =? RED) && (red_root l || red_root r)
                then raise_violation v1 RB_RED_CHILD_OF_RED
                else v1 in
      walk r (fst (walk l v2 bh)) bh
  end.

(** What rb_validate_tree computes on a stored tree. *)
Definition validate (t : tree) : Z :=
  match t with
  | Leaf => RB_VALID
  | Node _ _ _ _ _ =>
      fst (walk t (if red_root t then raise_violation RB_VALID RB_RED_ROOT
                   else RB_VALID)
             (spine_budget t 0))
  end.

(** The number of BLACK nodes on each root-to-leaf path, left to right;
    a path ends in an absent child. *)
Fixpoint path_blacks (t : tree) : list Z :=
  match t with
  | Leaf => [0]
  | Node _ c _ l r =>
      map (fun n => (if c =? BLACK then 1 else 0) + n)
          (path_blacks l ++ path_blacks r)
  end.

(** Two root-to-leaf paths with different numbers of BLACK nodes. *)
Definition unequal_paths (t : tree) : Prop :=
  exists x y, In x (path_blacks t) /\ In y (path_blacks t) /\ x <> y.

(** A RED node with a RED child somewhere in the tree (rule 4). *)
Fixpoint red_red (t : tree) : bool :=
  match t with
  | Leaf => false
  | Node _ c _ l r =>
      ((c =? RED) && (red_root l || red_root r)) || red_red l || red_red r
  end.

(** Addresses of the nodes, root first. *)
Fixpoint addrs (t : tree) : list ptr :=
  match t with
  | Leaf => []
  | Node a _ _ l r => a :: addrs l ++ addrs r
  end.

(** Where the descent of rb_insert_node for the key [k] ends on a stored
    tree entered with parent [par]: the node to hang the new node on, or
    [None] when [k] is met on the way. *)
Fixpoint attach_point (par : ptr) (k : ptr) (t : tree) : option ptr :=
  match t with
  | Leaf => Some par
  | Node b _ x l r =>
      if k <? x then attach_point b k l
      else if k >? x then attach_point b k r
      else None
  end.

(** What rb_insert_node does to a stored tree when it is given the node at
    [a] holding [k]: the node becomes a RED leaf at the end of the descent;
    nothing is rotated or recoloured. *)
Fixpoint bst_insert (a : ptr) (k : ptr) (t : tree) : tree :=
  match t with
  | Leaf => Node a RED k Leaf Leaf
  | Node b c x l r =>
      if k <? x then Node b c x (bst_insert a k l) r
      else if k >? x then Node b c x l (bst_insert a k r)
      else t
  end.

(** What insert_node does: the first node becomes a BLACK root. *)
Definition insert_tree (a : ptr) (k : ptr) (t : tree) : tree :=
  match t with
  | Leaf => Node a BLACK k Leaf Leaf
  | Node _ _ _ _ _ => bst_insert a k t
  end.

(** The other child slot of [g], seen from its child [p]. *)
Definition sibling_of (g : node_t) (p s : ptr) : Prop :=
  (left g = p /\ s = right g) \/ (right g = p /\ s = left g).

(** A computation that neither writes the heap, nor prints, nor aborts. *)
Definition read_only {A} (m : M A) : Prop :=
  forall s, match m s with
            | Done _ s' => s' = s
            | Aborted _ => False
            | _ => True
            end.

(** ** A concrete run-time environment for the scenarios *)

(** A bump allocator: blocks of 40 bytes from address 4096 on, handed out
    with zeroed contents (0 is not a colour). *)
Definition bump (h : gmap Z node_t) : option (ptr * node_t) :=
  Some (4096 + 40 * Z.of_nat (size h), mk_node 0 0 0 0 0).

Definition empty_state : state := mk_state ∅ [].

(** insert_node called for each key of [ks] in turn, on the root the
    previous call left. *)
Fixpoint insert_all (malloc : gmap Z node_t -> option (ptr * node_t))
    (fuel : nat) (root : ptr) (ks : list ptr) : M ptr :=
  match ks with
  | [] => ret root
  | k :: ks' =>
      root' <- insert_node malloc fuel root k ;;
      insert_all malloc fuel root' ks'
  end.

(** The tree that inserting 10, 20, 30 leaves under [bump]. *)
Definition chain_10_20_30 : tree :=
  Node 4096 BLACK 10 Leaf
    (Node 4136 RED 20 Leaf
       (Node 4176 RED 30 Leaf Leaf)).

(** The tree the specification's scenario expects for the same keys. *)
Definition balanced_10_20_30 (a10 a20 a30 : ptr) : tree :=
  Node a20 BLACK 20 (Node a10 RED 10 Leaf Leaf) (Node a30 RED 30 Leaf Leaf).

Definition single_10 : tree := Node 4096 BLACK 10 Leaf Leaf.

(** The heap after inserting 10, 20, 30 under [bump], written out. *)
Definition chain_heap : gmap Z node_t :=
  <[4176 := mk_node 30 4136 NULL NULL RED]>
    (<[4136 := mk_node 20 4096 NULL 4176 RED]>
       (<[4096 := mk_node 10 NULL NULL 4136 BLACK]> ∅)).

Definition chain_state : state := mk_state chain_heap [].

(** The heap after inserting 20, 10, 30, 5 under [bump]: 20 (BLACK) over
    10 (RED) and 30 (RED), and 5 (RED) under 10. *)
Definition family_heap : gmap Z node_t :=
  <[4216 := mk_node 5 4136 NULL NULL RED]>
    (<[4176 := mk_node 30 4096 NULL NULL RED]>
       (<[4136 := mk_node 10 4096 4216 NULL RED]>
          (<[4096 := mk_node 20 NULL 4136 4176 BLACK]> ∅))).

(** The state rb_insert_node is entered in when 20 is inserted after 10
    under [bump]: the one-node tree and the new, still unlinked node. *)
Definition pending_20_state : state :=
  mk_state
    (<[4136 := mk_node 20 NULL NULL NULL 0]>
       (<[4096 := mk_node 10 NULL NULL NULL BLACK]> ∅))
    [].

(** ** Vocabulary for the further properties *)

(** [violations & flag] as insert_node tests it. *)
Definition has_flag (violations flag : Z) : bool :=
  negb (Z.land violations flag =? 0).

(** The number of non-RED nodes on each root-to-leaf path, left to right:
    what rb_get_black_height and rb_validate_black_height count (they
    test !IS_RED, where the walk tests IS_BLACK). *)
Fixpoint path_nonreds (t : tree) : list Z :=
  match t with
  | Leaf => [0]
  | Node _ c _ l r =>
      map (fun n => (if negb (c =? RED) then 1 else 0) + n)
          (path_nonreds l ++ path_nonreds r)
  end.

(** The colour field of the left-most node. *)
Fixpoint leftmost_color (t : tree) : option Z :=
  match t with
  | Leaf => None
  | Node _ c _ l _ =>
      match l with
      | Leaf => Some c
      | Node _ _ _ _ _ => leftmost_color l
      end
  end.

(** Some node whose colour field is neither RED nor BLACK (rule 1). *)
Fixpoint invalid_color (t : tree) : bool :=
  match t with
  | Leaf => false
  | Node _ c _ l r =>
      (negb (c =? RED) && negb (c =? BLACK)) || invalid_color l || invalid_color r
  end.

Fixpoint all_red (t : tree) : bool :=
  match t with
  | Leaf => true
  | Node _ c _ l r => (c =? RED) && all_red l && all_red r
  end.

(** The colouring insert_node produces: a BLACK root over RED nodes. *)
Definition insert_colored (t : tree) : Prop :=
  match t with
  | Leaf => True
  | Node _ c _ l r => c = BLACK /\ all_red l = true /\ all_red r = true
  end.

(** [n'] is [n] except that a child link that was NULL may now point to
    [a]. *)
Definition linked_to (a : ptr) (n n' : node_t) : Prop :=
  key n' = key n /\ parent n' = parent n /\ color n' = color n /\
  (left n' = left n \/ (left n = NULL /\ left n' = a)) /\
  (right n' = right n \/ (right n = NULL /\ right n' = a)).

(** What insert_node prints after the validation of a non-empty tree. *)
Definition report_lines (violations : Z) : list string :=
  if violations =? RB_VALID then [ "tree is a valid rb tree\n" ]
  else
    "tree validation failed.\n" ::
    (if has_flag violations RB_RED_ROOT
     then [ "- root is red (violates property 2)\n" ] else []) ++
    (if has_flag violations RB_RED_CHILD_OF_RED
     then [ "- found red node with red child (violates properties 4/7)\n" ]
     else []) ++
    (if has_flag violations RB_UNEQUAL_BLACK_PATHS
     then [ "- paths have different number of black nodes (violates property 5)\n" ]
     else []) ++
    (if has_flag violations RB_INVALID_COLOR
     then [ "- found node with invalid color (violates property 1)\n" ]
     else []) ++
    (if has_flag violations RB_NULL_NOT_BLACK
     then [ "- found null leaf that isn't black (violates property 3)\n" ]
     else []).



(** An allocator that is out of memory. *)
Definition no_memory (h : gmap Z node_t) : option (ptr * node_t) := None.

(** The subtree 20 -> 30 of the chain, rooted at a node that has a parent. *)
Definition subchain_20_30 : tree :=
  Node 4136 RED 20 Leaf (Node 4176 RED 30 Leaf Leaf).

(** The heap after inserting 20, 10, 30 under [bump], and its tree. *)
Definition trio_heap : gmap Z node_t :=
  <[4176 := mk_node 30 4096 NULL NULL RED]>
    (<[4136 := mk_node 10 4096 NULL NULL RED]>
       (<[4096 := mk_node 20 NULL 4136 4176 BLACK]> ∅)).

Definition trio_tree : tree := balanced_10_20_30 4136 4096 4176.

(** A two-node tree with a BLACK root over a BLACK right child. *)
Definition lopsided_heap : gmap Z node_t :=
  <[4136 := mk_node 20 4096 NULL NULL BLACK]>
    (<[4096 := mk_node 10 NULL NULL 4136 BLACK]> ∅).

Definition lopsided_tree : tree :=
  Node 4096 BLACK 10 Leaf (Node 4136 BLACK 20 Leaf Leaf).

(** The tree stored in [family_heap]. *)
Definition family_tree : tree :=
  Node 4096 BLACK 20
    (Node 4136 RED 10 (Node 4216 RED 5 Leaf Leaf) Leaf)
    (Node 4176 RED 30 Leaf Leaf).

(** ** Running computations *)

Lemma bind_done {A B} (m : M A) (k : A -> M B) s a s' :
  m s = Done a s' -> bind m k s = k a s'.
Proof. intros E. unfold bind. now rewrite E. Qed.

Lemma bind_load {B} (k : node_t -> M B) s p n :
  heap s !! p = Some n -> bind (load p) k s = k n s.
Proof. intros E. apply bind_done. unfold load. now rewrite E. Qed.

Lemma eqb_NULL_false (p : ptr) : p <> NULL -> (p =? NULL) = false.
Proof. intros. now apply Z.eqb_neq. Qed.

Lemma int_decr_done x s : INT_MIN < x -> int_decr x s = Done (x - 1) s.
Proof.
  intros H. unfold int_decr. apply Z.ltb_lt in H. now rewrite H.
Qed.

Lemma int_incr_done x s : x < INT_MAX -> int_incr x s = Done (x + 1) s.
Proof.
  intros H. unfold int_incr. apply Z.ltb_lt in H. now rewrite H.
Qed.

(** ** Read-only computations *)

Create HintDb readonly.

Lemma read_only_ret {A} (a : A) : read_only (ret a).
Proof. now intros s. Qed.

Lemma read_only_undef {A} : read_only (@undef A).
Proof. now intros s. Qed.

Lemma read_only_out_of_fuel {A} : read_only (@out_of_fuel A).
Proof. now intros s. Qed.

Lemma read_only_load p : read_only (load p).
Proof. intros s. unfold load. now destruct (heap s !! p). Qed.

Lemma read_only_bind {A B} (m : M A) (k : A -> M B) :
  read_only m -> (forall a, read_only (k a)) -> read_only (bind m k).
Proof.
  intros Hm Hk s. unfold bind. specialize (Hm s).
  destruct (m s) as [a s1| | |]; try easy.
  subst s1. apply Hk.
Qed.

Lemma read_only_int_incr x : read_only (int_incr x).
Proof. unfold int_incr. destruct (x <? INT_MAX); now intros s. Qed.

Lemma read_only_int_decr x : read_only (int_decr x).
Proof. unfold int_decr. destruct (INT_MIN <? x); now intros s. Qed.

Lemma read_only_if {A} (b : bool) (m1 m2 : M A) :
  read_only m1 -> read_only m2 -> read_only (if b then m1 else m2).
Proof. now destruct b. Qed.

#[local] Hint Resolve read_only_ret read_only_undef read_only_out_of_fuel
  read_only_load read_only_int_incr read_only_int_decr : readonly.

Ltac read_only_step :=
  first [ apply read_only_bind; [ | intros ? ]
        | apply read_only_if
        | solve [ auto with readonly ] ].

Lemma black_height_loop_read_only fuel :
  forall curr bh, read_only (black_height_loop fuel curr bh).
Proof.
  induction fuel as [|fuel IH]; intros curr bh; simpl.
  - auto with readonly.
  - repeat read_only_step.
Qed.

Lemma rb_validate_tree_recursive_read_only fuel :
  forall root v bh, read_only (rb_validate_tree_recursive fuel root v bh).
Proof.
  induction fuel as [|fuel IH]; intros root v bh; simpl.
  - auto with readonly.
  - repeat read_only_step.
Qed.

Lemma rb_validate_black_height_read_only fuel :
  forall root bh, read_only (rb_validate_black_height fuel root bh).
Proof.
  induction fuel as [|fuel IH]; intros root bh; simpl.
  - auto with readonly.
  - repeat read_only_step.
Qed.

Lemma find_insertion_point_read_only fuel :
  forall newnode current par,
    read_only (find_insertion_point fuel newnode current par).
Proof.
  induction fuel as [|fuel IH]; intros newnode current par; simpl.
  - auto with readonly.
  - repeat read_only_step.
Qed.

Lemma rb_get_uncle_color_read_only n : read_only (rb_get_uncle_color n).
Proof. unfold rb_get_uncle_color. repeat read_only_step. Qed.

(** rb_rebalance, which no function calls, could not repair anything: with
    rb_color_flip and rb_rotate empty it leaves the state as it is. *)
Lemma rb_rebalance_read_only n : read_only (rb_rebalance n).
Proof.
  unfold rb_rebalance, rb_color_flip, rb_rotate.
  pose proof (rb_get_uncle_color_read_only n).
  repeat read_only_step.
Qed.

(** Whatever the heap, and however the call ends, rb_validate_tree leaves
    every node as it found it; when it returns it has printed nothing. *)
Lemma rb_validate_tree_frame fuel root s :
  match rb_validate_tree fuel root s with
  | Done _ s' => s' = s
  | Aborted s' => heap s' = heap s
  | _ => True
  end.
Proof.
  unfold rb_validate_tree.
  destruct (root =? NULL); [reflexivity|].
  unfold bind at 1.
  pose proof (read_only_load root s) as Hl.
  destruct (load root s) as [n s1| | |]; try easy. subst s1.
  destruct (parent n =? NULL); simpl.
  - match goal with |- match ?m s with _ => _ end =>
      assert (Hro : read_only m)
    end.
    { unfold rb_get_black_height. repeat read_only_step.
      - apply black_height_loop_read_only.
      - apply rb_validate_tree_recursive_read_only. }
    specialize (Hro s).
    match goal with |- match ?r with _ => _ end => destruct r end; easy.
  - reflexivity.
Qed.

(** ** The code on a stored tree *)

Lemma tree_rep_root h par a c k l r :
  tree_rep h par (Node a c k l r) ->
  a <> NULL /\ h !! a = Some (mk_node k par (root_of l) (root_of r) c).
Proof. simpl. tauto. Qed.

(** Nodes outside the stored tree can be added without disturbing it. *)
Lemma tree_rep_insert_fresh h par t a n :
  h !! a = None -> tree_rep h par t -> tree_rep (<[a := n]> h) par t.
Proof.
  intros Hfresh. revert par.
  induction t as [|a' c k l IHl r IHr]; intros par; simpl; [trivial|].
  intros (Ha & Hn & Hl & Hr). repeat split; auto.
  rewrite lookup_insert_ne; [assumption|].
  intros ->. rewrite Hfresh in Hn. discriminate.
Qed.

(** The test  p && IS_RED(p)  on a child link of a stored node. *)
Lemma red_child_test s par t :
  tree_rep (heap s) par t ->
  (if negb (root_of t =? NULL)
   then c <- load (root_of t) ;; ret (IS_RED c)
   else ret false) s = Done (red_root t) s.
Proof.
  destruct t as [|a c k l r]; [reflexivity|].
  intros Ht. apply tree_rep_root in Ht as [Ha Hn]. cbn [root_of].
  rewrite (eqb_NULL_false _ Ha). cbn [negb].
  now rewrite (bind_load _ _ _ _ Hn).
Qed.

Lemma walk_run t :
  forall fuel par v bh s,
    tree_rep (heap s) par t ->
    INT_MIN <= bh - Z.of_nat (height t) ->
    (height t < fuel)%nat ->
    rb_validate_tree_recursive fuel (root_of t) v bh s = Done (walk t v bh) s.
Proof.
  induction t as [|a c k l IHl r IHr]; intros fuel par v bh s Ht Hbh Hfuel;
    (destruct fuel as [|fuel]; [lia|]).
  - reflexivity.
  - simpl in Ht. destruct Ht as (Ha & Hn & Hl & Hr).
    simpl height in Hbh, Hfuel.
    cbn [rb_validate_tree_recursive root_of].
    rewrite (eqb_NULL_false _ Ha).
    rewrite (bind_load _ _ _ _ Hn).
    unfold IS_RED, IS_BLACK. cbn [color left right].
    set (bh1 := if c =? BLACK then bh - 1 else bh).
    assert (Hdec : (if c =? BLACK then int_decr bh else ret bh) s = Done bh1 s).
    { subst bh1. destruct (c =? BLACK); [|reflexivity].
      apply int_decr_done. lia. }
    rewrite (bind_done _ _ _ _ _ Hdec).
    set (v1 := if negb (c =? RED) && negb (c =? BLACK)
               then raise_violation v RB_INVALID_COLOR else v).
    set (v2 := if (c =? RED) && (red_root l || red_root r)
               then raise_violation v1 RB_RED_CHILD_OF_RED else v1).
    match goal with |- bind ?m _ _ = _ =>
      assert (Hred : m s = Done v2 s)
    end.
    { subst v2. destruct (c =? RED); [|reflexivity]. cbn [andb].
      rewrite (bind_done _ _ _ _ _ (red_child_test s a l Hl)).
      destruct (red_root l); cbn [orb].
      - reflexivity.
      - now rewrite (bind_done _ _ _ _ _ (red_child_test s a r Hr)). }
    rewrite (bind_done _ _ _ _ _ Hred).
    assert (Hb1 : bh - 1 <= bh1 <= bh) by (subst bh1; destruct (c =? BLACK); lia).
    rewrite (bind_done _ _ _ _ _ (IHl fuel a v2 bh1 s Hl ltac:(lia) ltac:(lia))).
    rewrite (IHr fuel a _ bh1 s Hr ltac:(lia) ltac:(lia)).
    reflexivity.
Qed.

Lemma spine_run t :
  forall fuel par bh s,
    t <> Leaf ->
    tree_rep (heap s) par t ->
    bh + Z.of_nat (height t) <= INT_MAX ->
    (height t <= fuel)%nat ->
    black_height_loop fuel (root_of t) bh s = Done (spine_budget t bh) s.
Proof.
  induction t as [|a c k l IHl r _]; intros fuel par bh s Hne Ht Hbh Hfuel;
    [congruence|].
  simpl in Ht. destruct Ht as (Ha & Hn & Hl & Hr).
  simpl height in Hbh, Hfuel.
  destruct fuel as [|fuel]; [lia|].
  cbn [black_height_loop root_of].
  rewrite (bind_load _ _ _ _ Hn). cbn [left].
  destruct l as [|la lc lk ll lr].
  - reflexivity.
  - assert (Hla : la <> NULL) by (simpl in Hl; tauto).
    cbn [root_of]. rewrite (eqb_NULL_false _ Hla). cbn [negb].
    unfold IS_RED. cbn [color spine_budget].
    set (bh1 := if negb (c =? RED) then bh + 1 else bh).
    assert (Hinc : (if negb (c =? RED) then int_incr bh else ret bh) s
                   = Done bh1 s).
    { subst bh1. destruct (c =? RED); [reflexivity|]. cbn [negb].
      apply int_incr_done. simpl height in Hbh. lia. }
    rewrite (bind_done _ _ _ _ _ Hinc).
    assert (Hb1 : bh1 <= bh + 1) by (subst bh1; destruct (c =? RED); simpl; lia).
    apply (IHl fuel a bh1 s); [congruence|assumption|lia|lia].
Qed.

Lemma spine_budget_bounds t :
  forall bh, bh <= spine_budget t bh <= bh + Z.of_nat (height t).
Proof.
  induction t as [|a c k l IHl r _]; intros bh; [simpl; lia|].
  change (spine_budget (Node a c k l r) bh)
    with (match l with
          | Leaf => bh
          | Node _ _ _ _ _ =>
              spine_budget l (if negb (c =? RED) then bh + 1 else bh)
          end).
  change (height (Node a c k l r)) with (S (Nat.max (height l) (height r))).
  specialize (IHl (if negb (c =? RED) then bh + 1 else bh)).
  destruct l; [lia|].
  destruct (c =? RED); cbn [negb] in *; lia.
Qed.

(** rb_validate_tree on a stored tree whose root has no parent: it returns
    [validate t] and the program state is the one it started from. *)
Lemma validate_run t fuel s :
  tree_rep (heap s) NULL t ->
  Z.of_nat (height t) <= INT_MAX ->
  (height t < fuel)%nat ->
  rb_validate_tree fuel (root_of t) s = Done (validate t) s.
Proof.
  intros Ht Hh Hfuel. unfold rb_validate_tree.
  destruct t as [|a c k l r]; [reflexivity|].
  pose proof (tree_rep_root _ _ _ _ _ _ _ Ht) as [Ha Hn].
  cbn [root_of]. rewrite (eqb_NULL_false _ Ha).
  rewrite (bind_load _ _ _ _ Hn). cbn [parent].
  change (NULL =? NULL) with true. cbn [negb].
  rewrite (bind_done _ _ _ tt s eq_refl).
  unfold rb_get_black_height.
  set (t := Node a c k l r) in *.
  assert (Hspine : black_height_loop fuel (root_of t) 0 s
                   = Done (spine_budget t 0) s).
  { apply (spine_run t fuel NULL 0 s); [discriminate|assumption|lia|lia]. }
  rewrite (bind_done _ _ _ _ _ Hspine).
  pose proof (spine_budget_bounds t 0) as Hb.
  match goal with |- bind (rb_validate_tree_recursive _ _ ?v ?bh) _ _ = _ =>
    assert (Hwalk : rb_validate_tree_recursive fuel (root_of t) v bh s
                    = Done (walk t v bh) s)
  end.
  { apply (walk_run t fuel NULL); [assumption| |assumption].
    unfold INT_MIN, INT_MAX in *. lia. }
  rewrite (bind_done _ _ _ _ _ Hwalk).
  reflexivity.
Qed.

(** ** Allocation and field assignment *)

Lemma store_done s p n0 n :
  heap s !! p = Some n0 ->
  store p n s = Done tt (mk_state (<[p := n]> (heap s)) (out s)).
Proof. intros E. unfold store. now rewrite E. Qed.

Lemma set_key_done s p n v :
  heap s !! p = Some n ->
  set_key p v s
  = Done tt (mk_state
      (<[p := mk_node v (parent n) (left n) (right n) (color n)]> (heap s))
      (out s)).
Proof.
  intros E. unfold set_key. rewrite (bind_load _ _ _ _ E).
  now apply store_done with n.
Qed.

Lemma set_parent_done s p n v :
  heap s !! p = Some n ->
  set_parent p v s
  = Done tt (mk_state
      (<[p := mk_node (key n) v (left n) (right n) (color n)]> (heap s))
      (out s)).
Proof.
  intros E. unfold set_parent. rewrite (bind_load _ _ _ _ E).
  now apply store_done with n.
Qed.

Lemma set_left_done s p n v :
  heap s !! p = Some n ->
  set_left p v s
  = Done tt (mk_state
      (<[p := mk_node (key n) (parent n) v (right n) (color n)]> (heap s))
      (out s)).
Proof.
  intros E. unfold set_left. rewrite (bind_load _ _ _ _ E).
  now apply store_done with n.
Qed.

Lemma set_right_done s p n v :
  heap s !! p = Some n ->
  set_right p v s
  = Done tt (mk_state
      (<[p := mk_node (key n) (parent n) (left n) v (color n)]> (heap s))
      (out s)).
Proof.
  intros E. unfold set_right. rewrite (bind_load _ _ _ _ E).
  now apply store_done with n.
Qed.

Lemma set_color_done s p n v :
  heap s !! p = Some n ->
  set_color p v s
  = Done tt (mk_state
      (<[p := mk_node (key n) (parent n) (left n) (right n) v]> (heap s))
      (out s)).
Proof.
  intros E. unfold set_color. rewrite (bind_load _ _ _ _ E).
  now apply store_done with n.
Qed.

(** One assignment to a field of the block that was written last. *)
Ltac assign_fresh lem :=
  erewrite bind_done
    by (apply lem; cbn [heap]; apply lookup_insert_eq);
  cbn [heap out key parent left right color];
  rewrite insert_insert_eq.

Lemma create_node_done malloc val s a junk :
  val <> NULL ->
  malloc (heap s) = Some (a, junk) ->
  a <> NULL ->
  create_node malloc val s
  = Done a (mk_state (<[a := mk_node val NULL NULL NULL (color junk)]> (heap s))
              (out s)).
Proof.
  intros Hval Hm Ha. unfold create_node.
  rewrite (eqb_NULL_false _ Hval).
  assert (Hmn : malloc_node malloc s
                = Done a (mk_state (<[a := junk]> (heap s)) (out s))).
  { unfold malloc_node. now rewrite Hm. }
  rewrite (bind_done _ _ _ _ _ Hmn).
  rewrite (eqb_NULL_false _ Ha).
  assign_fresh set_key_done.
  assign_fresh set_left_done.
  assign_fresh set_right_done.
  assign_fresh set_parent_done.
  reflexivity.
Qed.

Lemma create_node_null malloc s : create_node malloc NULL s = Done NULL s.
Proof. reflexivity. Qed.

(** When malloc fails create_node returns NULL and assert(newnode) ends the
    program; the heap is the one the call was entered with. *)
Lemma insert_node_allocation_failure malloc fuel root val s :
  val <> NULL ->
  malloc (heap s) = None ->
  insert_node malloc fuel root val s = Aborted s.
Proof.
  intros Hval Hm. unfold insert_node, create_node.
  rewrite (eqb_NULL_false _ Hval).
  assert (Hmn : malloc_node malloc s = Done NULL s)
    by (unfold malloc_node; now rewrite Hm).
  assert (Hcreate :
    (n <- malloc_node malloc ;;
     if n =? NULL then ret NULL
     else set_key n val ;; set_left n NULL ;; set_right n NULL ;;
          set_parent n NULL ;; ret n) s = Done NULL s)
    by now rewrite (bind_done _ _ _ _ _ Hmn).
  now rewrite (bind_done _ _ _ _ _ Hcreate).
Qed.

(** ** Descending to a key that is already stored *)

Lemma find_insertion_point_duplicate t :
  forall fuel par s newnode nn,
    tree_rep (heap s) par t ->
    bst t ->
    In (key nn) (keys t) ->
    heap s !! newnode = Some nn ->
    (height t <= fuel)%nat ->
    find_insertion_point fuel newnode (root_of t) par s = Done None s.
Proof.
  induction t as [|a c k l IHl r IHr];
    intros fuel par s newnode nn Ht Hbst Hin Hnew Hfuel; [contradiction|].
  simpl in Ht. destruct Ht as (Ha & Hn & Hl & Hr).
  simpl in Hbst. destruct Hbst as (Hbl & Hbr & Hlt & Hgt).
  simpl height in Hfuel. destruct fuel as [|fuel]; [lia|].
  cbn [find_insertion_point root_of].
  rewrite (eqb_NULL_false _ Ha).
  rewrite (bind_load _ _ _ _ Hnew), (bind_load _ _ _ _ Hn). cbn [key left right].
  simpl keys in Hin. apply in_app_or in Hin.
  rewrite Forall_forall in Hlt, Hgt.
  destruct (Z.ltb_spec (key nn) k) as [Hlo|Hhi].
  - apply (IHl fuel a s newnode nn); try assumption; [|lia].
    destruct Hin as [Hin|[Hin|Hin]]; [assumption|lia|].
    apply list_elem_of_In, Hgt in Hin. lia.
  - destruct (Z.gtb_spec (key nn) k) as [Hgt'|Hle].
    + apply (IHr fuel a s newnode nn); try assumption; [|lia].
      destruct Hin as [Hin|[Hin|Hin]]; [|lia|assumption].
      apply list_elem_of_In, Hlt in Hin. lia.
    + reflexivity.
Qed.

(** The reporting tail of insert_node prints and returns the root. *)
Lemma report_tail (violations : Z) (root : ptr) s :
  exists lines,
    (if violations =? RB_VALID then
       printf "tree is a valid rb tree\n" ;;
       ret root
     else
       printf "tree validation failed.\n" ;;
       report violations RB_RED_ROOT
         "- root is red (violates property 2)\n" ;;
       report violations RB_RED_CHILD_OF_RED
         "- found red node with red child (violates properties 4/7)\n" ;;
       report violations RB_UNEQUAL_BLACK_PATHS
         "- paths have different number of black nodes (violates property 5)\n" ;;
       report violations RB_INVALID_COLOR
         "- found node with invalid color (violates property 1)\n" ;;
       report violations RB_NULL_NOT_BLACK
         "- found null leaf that isn't black (violates property 3)\n" ;;
       ret root) s
    = Done root (mk_state (heap s) (out s ++ lines)).
Proof.
  destruct (violations =? RB_VALID).
  - eexists. reflexivity.
  - unfold report.
    destruct (negb (Z.land violations RB_RED_ROOT =? 0));
    destruct (negb (Z.land violations RB_RED_CHILD_OF_RED =? 0));
    destruct (negb (Z.land violations RB_UNEQUAL_BLACK_PATHS =? 0));
    destruct (negb (Z.land violations RB_INVALID_COLOR =? 0));
    destruct (negb (Z.land violations RB_NULL_NOT_BLACK =? 0));
    eexists; unfold bind, printf, ret; cbn [heap out];
    rewrite <- ?app_assoc; reflexivity.
Qed.

(** ** Insertion on a stored tree *)

Lemma addrs_allocated h t :
  forall par x, tree_rep h par t -> x ∈ addrs t -> x <> NULL /\ is_Some (h !! x).
Proof.
  induction t as [|a c k l IHl r IHr]; intros par x Ht Hx; simpl in *.
  - now apply elem_of_nil in Hx.
  - destruct Ht as (Ha & Hn & Hl & Hr).
    apply elem_of_cons in Hx as [->|Hx]; [eauto|].
    apply elem_of_app in Hx as [Hx|Hx]; eauto.
Qed.

Lemma fresh_not_in_tree h par t a :
  tree_rep h par t -> h !! a = None -> a ∉ addrs t.
Proof.
  intros Ht Hfresh Hin.
  destruct (addrs_allocated h t par a Ht Hin) as [_ [n Hn]]. congruence.
Qed.

(** A stored tree only depends on the blocks of its own nodes. *)
Lemma tree_rep_frame h h' t :
  forall par,
    tree_rep h par t ->
    (forall x, x ∈ addrs t -> h' !! x = h !! x) ->
    tree_rep h' par t.
Proof.
  induction t as [|a c k l IHl r IHr]; intros par Ht Hsame; simpl in *; [trivial|].
  destruct Ht as (Ha & Hn & Hl & Hr). repeat split; [assumption| | |].
  - rewrite Hsame; [assumption|]. apply elem_of_cons. now left.
  - apply IHl; [assumption|]. intros x Hx. apply Hsame.
    apply elem_of_cons. right. apply elem_of_app. now left.
  - apply IHr; [assumption|]. intros x Hx. apply Hsame.
    apply elem_of_cons. right. apply elem_of_app. now right.
Qed.

Lemma find_insertion_point_run t :
  forall fuel par s newnode nn,
    tree_rep (heap s) par t ->
    heap s !! newnode = Some nn ->
    (height t < fuel)%nat ->
    find_insertion_point fuel newnode (root_of t) par s
    = Done (attach_point par (key nn) t) s.
Proof.
  induction t as [|a c k l IHl r IHr];
    intros fuel par s newnode nn Ht Hnew Hfuel;
    (destruct fuel as [|fuel]; [lia|]); [reflexivity|].
  simpl in Ht. destruct Ht as (Ha & Hn & Hl & Hr).
  simpl height in Hfuel.
  cbn [find_insertion_point root_of attach_point].
  rewrite (eqb_NULL_false _ Ha).
  rewrite (bind_load _ _ _ _ Hnew), (bind_load _ _ _ _ Hn). cbn [key left right].
  destruct (key nn <? k).
  - apply IHl; [assumption|assumption|lia].
  - destruct (key nn >? k); [|reflexivity].
    apply IHr; [assumption|assumption|lia].
Qed.

Lemma attach_point_in t :
  forall par k p, t <> Leaf -> attach_point par k t = Some p -> p ∈ addrs t.
Proof.
  induction t as [|b c x l IHl r IHr]; intros par k p Hne Hp; [congruence|].
  cbn [attach_point addrs] in *. apply elem_of_cons.
  destruct (k <? x).
  - destruct l as [|lb lc lx ll lr]; [left; simpl in Hp; congruence|].
    right. apply elem_of_app. left. apply (IHl b k); [discriminate|assumption].
  - destruct (k >? x); [|discriminate].
    destruct r as [|rb rc rx rl rr]; [left; simpl in Hp; congruence|].
    right. apply elem_of_app. right. apply (IHr b k); [discriminate|assumption].
Qed.

Lemma attach_point_none t :
  forall par a k, attach_point par k t = None -> bst_insert a k t = t.
Proof.
  induction t as [|b c x l IHl r IHr]; intros par a k Hp; [discriminate|].
  cbn [attach_point bst_insert] in *.
  destruct (k <? x); [now rewrite (IHl b)|].
  destruct (k >? x); [now rewrite (IHr b)|reflexivity].
Qed.

Lemma bst_insert_root a k t : t <> Leaf -> root_of (bst_insert a k t) = root_of t.
Proof.
  destruct t as [|b c x l r]; [congruence|]. intros _. simpl.
  destruct (k <? x); [reflexivity|]. now destruct (k >? x).
Qed.

Lemma bst_insert_height a k t : (height (bst_insert a k t) <= S (height t))%nat.
Proof.
  induction t as [|b c x l IHl r IHr]; [simpl; lia|].
  cbn [bst_insert]. destruct (k <? x); [simpl; lia|].
  destruct (k >? x); simpl; lia.
Qed.

(** The heap after the three assignments that link the new node stores the
    tree with the node inserted. *)
Lemma bst_insert_rep h h' a k p pn t :
  forall par,
    tree_rep h par t ->
    NoDup (addrs t) ->
    a ∉ addrs t ->
    a <> NULL ->
    t <> Leaf ->
    attach_point par k t = Some p ->
    h !! p = Some pn ->
    h' !! a = Some (mk_node k p NULL NULL RED) ->
    h' !! p = Some (if k <? key pn
                    then mk_node (key pn) (parent pn) a (right pn) (color pn)
                    else mk_node (key pn) (parent pn) (left pn) a (color pn)) ->
    (forall x, x <> a -> x <> p -> h' !! x = h !! x) ->
    tree_rep h' par (bst_insert a k t).
Proof.
  induction t as [|b c x l IHl r IHr];
    intros par Ht Hnd Ha Hnull Hne Hp Hpn Hnew Hpar Hsame; [congruence|].
  simpl in Ht. destruct Ht as (Hb & Hn & Hl & Hr).
  cbn [addrs] in Hnd, Ha.
  apply NoDup_cons in Hnd as [Hbl Hnd].
  apply NoDup_app in Hnd as (Hndl & Hdisj & Hndr).
  rewrite elem_of_cons, elem_of_app in Ha.
  rewrite elem_of_app in Hbl.
  assert (Hab : b <> a) by (intros ->; tauto).
  cbn [attach_point bst_insert] in *.
  destruct (k <? x) eqn:Hlt.
  - destruct l as [|lb lc lx ll lr].
    + (* the new node becomes the left child of b *)
      simpl in Hp. injection Hp as <-.
      rewrite Hn in Hpn. injection Hpn as <-. cbn [key] in Hpar.
      rewrite Hlt in Hpar. cbn [parent right color] in Hpar.
      simpl. repeat split; try assumption.
      apply tree_rep_frame with h; [assumption|].
      intros y Hy. apply Hsame; intros ->; tauto.
    + set (l := Node lb lc lx ll lr) in *.
      assert (Hpl : p ∈ addrs l)
        by (apply (attach_point_in l b k); [discriminate|assumption]).
      assert (Hbp : b <> p) by (intros ->; tauto).
      cbn [tree_rep]. rewrite bst_insert_root by discriminate.
      repeat split; [assumption| | |].
      * rewrite Hsame; assumption.
      * apply IHl; try assumption; [tauto|discriminate].
      * apply tree_rep_frame with h; [assumption|].
        intros y Hy. apply Hsame; intros ->; [tauto|].
        now apply (Hdisj p).
  - destruct (k >? x) eqn:Hgt; [|discriminate].
    destruct r as [|rb rc rx rl rr].
    + (* the new node becomes the right child of b *)
      simpl in Hp. injection Hp as <-.
      rewrite Hn in Hpn. injection Hpn as <-. cbn [key] in Hpar.
      rewrite Hlt in Hpar. cbn [parent left color] in Hpar.
      simpl. repeat split; try assumption.
      apply tree_rep_frame with h; [assumption|].
      intros y Hy. apply Hsame; intros ->; tauto.
    + set (r := Node rb rc rx rl rr) in *.
      assert (Hpr : p ∈ addrs r)
        by (apply (attach_point_in r b k); [discriminate|assumption]).
      assert (Hbp : b <> p) by (intros ->; tauto).
      cbn [tree_rep]. rewrite bst_insert_root by discriminate.
      repeat split; [assumption| | |].
      * rewrite Hsame; assumption.
      * apply tree_rep_frame with h; [assumption|].
        intros y Hy. apply Hsame; intros ->; [tauto|].
        now apply (Hdisj p).
      * apply IHr; try assumption; [tauto|discriminate].
Qed.

(** rb_insert_node on a stored tree and an unlinked new node: it returns,
    prints nothing, and the heap stores [bst_insert a k t]. *)
Lemma rb_insert_node_run t fuel s a k c0 :
  tree_rep (heap s) NULL t ->
  t <> Leaf ->
  NoDup (addrs t) ->
  heap s !! a = Some (mk_node k NULL NULL NULL c0) ->
  a ∉ addrs t ->
  a <> NULL ->
  (height t < fuel)%nat ->
  exists s',
    rb_insert_node fuel (root_of t) a s = Done tt s' /\
    out s' = out s /\
    tree_rep (heap s') NULL (bst_insert a k t) /\
    (forall x, x <> a -> x ∉ addrs t -> heap s' !! x = heap s !! x).
Proof.
  intros Ht Hne Hnd Hnew Ha Hnull Hfuel.
  unfold rb_insert_node.
  rewrite (bind_done _ _ _ _ _
             (find_insertion_point_run t fuel NULL s a _ Ht Hnew Hfuel)).
  cbn [key].
  destruct (attach_point NULL k t) as [p|] eqn:Hp.
  - pose proof (attach_point_in t NULL k p Hne Hp) as Hpin.
    destruct (addrs_allocated _ _ _ _ Ht Hpin) as [Hpnull [pn Hpn]].
    assert (Hap : a <> p) by (intros ->; tauto).
    rewrite (bind_done _ _ _ _ _ (set_parent_done s a _ p Hnew)).
    cbn [key left right color].
    set (s1 := mk_state _ _).
    assert (Ha1 : heap s1 !! a = Some (mk_node k p NULL NULL c0))
      by apply lookup_insert_eq.
    assert (Hp1 : heap s1 !! p = Some pn)
      by (subst s1; cbn [heap]; now rewrite lookup_insert_ne).
    rewrite (bind_load _ _ _ _ Ha1), (bind_load _ _ _ _ Hp1). cbn [key].
    set (pn' := if k <? key pn
                then mk_node (key pn) (parent pn) a (right pn) (color pn)
                else mk_node (key pn) (parent pn) (left pn) a (color pn)).
    assert (Hlink :
      (if k <? key pn then set_left p a else set_right p a) s1
      = Done tt (mk_state (<[p := pn']> (heap s1)) (out s1))).
    { subst pn'. destruct (k <? key pn).
      - now apply set_left_done.
      - now apply set_right_done. }
    rewrite (bind_done _ _ _ _ _ Hlink).
    set (s2 := mk_state (<[p := pn']> (heap s1)) (out s1)).
    assert (Ha2 : heap s2 !! a = Some (mk_node k p NULL NULL c0))
      by (subst s2; cbn [heap]; rewrite lookup_insert_ne; [assumption|congruence]).
    rewrite (set_color_done s2 a _ RED Ha2). cbn [key parent left right].
    eexists. split; [reflexivity|].
    subst s2 s1. cbn [heap out].
    split; [reflexivity|]. split.
    + apply (bst_insert_rep (heap s) _ a k p pn t NULL); try assumption.
      * apply lookup_insert_eq.
      * rewrite lookup_insert_ne by assumption. apply lookup_insert_eq.
      * intros x Hxa Hxp.
        rewrite !lookup_insert_ne by congruence. reflexivity.
    + intros x Hxa Hx.
      assert (Hxp : x <> p) by (intros ->; tauto).
      rewrite !lookup_insert_ne by congruence. reflexivity.
  - exists s. rewrite (attach_point_none t NULL a k Hp). auto.
Qed.

(** insert_node on a stored tree: with a non-null key and a successful
    allocation of a fresh block at [a] the call returns, and the heap
    stores [insert_tree a k t]; the blocks outside the tree are untouched
    except the new one. *)
Lemma insert_node_run malloc t k s a junk fuel :
  tree_rep (heap s) NULL t ->
  NoDup (addrs t) ->
  k <> NULL ->
  Z.of_nat (height t) < INT_MAX ->
  malloc (heap s) = Some (a, junk) ->
  a <> NULL ->
  heap s !! a = None ->
  (S (height t) < fuel)%nat ->
  exists s',
    insert_node malloc fuel (root_of t) k s
    = Done (root_of (insert_tree a k t)) s' /\
    tree_rep (heap s') NULL (insert_tree a k t) /\
    (forall x, x <> a -> x ∉ addrs t -> heap s' !! x = heap s !! x).
Proof.
  intros Ht Hnd Hk Hh Hm Ha Hfresh Hfuel.
  set (nn := mk_node k NULL NULL NULL (color junk)).
  set (s1 := mk_state (<[a := nn]> (heap s)) (out s)).
  unfold insert_node.
  rewrite (bind_done _ _ _ _ _ (create_node_done malloc k s a junk Hk Hm Ha)).
  fold nn. fold s1.
  rewrite (eqb_NULL_false _ Ha). cbn [negb].
  rewrite (bind_done _ _ _ tt s1 eq_refl).
  assert (Hnew : heap s1 !! a = Some nn) by apply lookup_insert_eq.
  destruct t as [|b c x l r].
  - (* first node: it becomes the BLACK root *)
    cbn [root_of insert_tree]. change (NULL =? NULL) with true. cbv iota.
    rewrite (bind_done _ _ _ _ _ (set_color_done s1 a nn BLACK Hnew)).
    eexists. split; [reflexivity|]. cbn [heap].
    split.
    + simpl. repeat split; [assumption|]. apply lookup_insert_eq.
    + intros y Hya _. subst s1. cbn [heap].
      now rewrite !lookup_insert_ne by congruence.
  - set (t := Node b c x l r) in *.
    assert (Hroot : root_of t <> NULL) by (simpl in Ht; tauto).
    assert (Hat : a ∉ addrs t) by (apply fresh_not_in_tree with (heap s) NULL; assumption).
    assert (Ht1 : tree_rep (heap s1) NULL t)
      by (apply tree_rep_insert_fresh; assumption).
    rewrite (eqb_NULL_false _ Hroot).
    destruct (rb_insert_node_run t fuel s1 a k (color junk) Ht1
                ltac:(discriminate) Hnd Hnew Hat Ha ltac:(lia))
      as (s2 & Hins & Hout & Ht2 & Hsame).
    rewrite (bind_done _ _ _ _ _ Hins).
    assert (Hroot2 : root_of t = root_of (bst_insert a k t))
      by (symmetry; apply bst_insert_root; discriminate).
    pose proof (bst_insert_height a k t) as Hh2.
    assert (Hval : rb_validate_tree fuel (root_of t) s2
                   = Done (validate (bst_insert a k t)) s2).
    { rewrite Hroot2. apply validate_run; [assumption| |lia].
      unfold INT_MAX in *. lia. }
    rewrite (bind_done _ _ _ _ _ Hval).
    destruct (report_tail (validate (bst_insert a k t)) (root_of t) s2)
      as [lines Htail].
    eexists. split.
    + rewrite Htail. unfold insert_tree. subst t. cbv iota.
      rewrite <- Hroot2. reflexivity.
    + cbn [heap]. split; [exact Ht2|].
      intros y Hya Hy. rewrite (Hsame y Hya Hy).
      subst s1. cbn [heap]. now rewrite lookup_insert_ne by congruence.
Qed.

(** ** What the black-height flag reports *)

Lemma raise_violation_bit v f i :
  0 <= i < 32 ->
  Z.testbit (raise_violation v f) i = Z.testbit v i || Z.testbit f i.
Proof.
  intros Hi. unfold raise_violation.
  rewrite Z.lor_spec, Z.land_spec.
  change (uint32 (Z.lnot RB_VALID)) with (Z.ones 32).
  rewrite Z.ones_spec_low by lia.
  now rewrite andb_true_r.
Qed.

Lemma existsb_shift (b bh : Z) (l : list Z) :
  existsb (fun n => negb (n =? bh)) (map (fun n => b + n) l)
  = existsb (fun n => negb (n =? bh - b)) l.
Proof.
  induction l as [|x l IH]; [reflexivity|].
  simpl. rewrite IH. f_equal. f_equal.
  destruct (Z.eqb_spec (b + x) bh), (Z.eqb_spec x (bh - b)); try reflexivity; lia.
Qed.

(** The walk raises bit 4 exactly when some root-to-leaf path does not
    contain [black_h] BLACK nodes. *)
Lemma walk_flag t :
  forall v bh,
    Z.testbit (fst (walk t v bh)) 4
    = Z.testbit v 4 || existsb (fun n => negb (n =? bh)) (path_blacks t).
Proof.
  induction t as [|a c k l IHl r IHr]; intros v bh.
  - cbn [walk path_blacks existsb fst].
    rewrite orb_false_r, (Z.eqb_sym 0 bh).
    destruct (bh =? 0); cbn [negb].
    + now rewrite orb_false_r.
    + rewrite raise_violation_bit by lia. reflexivity.
  - cbn [walk path_blacks].
    rewrite IHr, IHl, existsb_shift, existsb_app.
    set (bh1 := if c =? BLACK then bh - 1 else bh).
    replace (bh - (if c =? BLACK then 1 else 0)) with bh1
      by (subst bh1; destruct (c =? BLACK); lia).
    rewrite <- orb_assoc. f_equal.
    destruct (c =? RED), (c =? BLACK), (red_root l), (red_root r);
      cbn [negb andb orb];
      rewrite ?raise_violation_bit by lia;
      now rewrite ?orb_false_r.
Qed.

(** The flag of rb_validate_tree compares every path with the budget of
    rb_get_black_height. *)
Lemma validate_flag_spec t :
  t <> Leaf ->
  Z.testbit (validate t) 4
  = existsb (fun n => negb (n =? spine_budget t 0)) (path_blacks t).
Proof.
  destruct t as [|a c k l r]; [congruence|]. intros _.
  unfold validate. rewrite walk_flag.
  destruct (red_root (Node a c k l r)); [|reflexivity].
  rewrite raise_violation_bit by lia. reflexivity.
Qed.

(** Paths that differ are always flagged. *)
Lemma validate_flags_unequal_paths t :
  t <> Leaf -> unequal_paths t -> Z.testbit (validate t) 4 = true.
Proof.
  intros Hne (x & y & Hx & Hy & Hxy).
  rewrite validate_flag_spec by assumption.
  apply existsb_exists.
  destruct (Z.eq_dec x (spine_budget t 0)) as [Ex|Ex].
  - exists y. split; [assumption|]. apply negb_true_iff, Z.eqb_neq. congruence.
  - exists x. split; [assumption|]. now apply negb_true_iff, Z.eqb_neq.
Qed.

(** Three ascending keys end up as a right-leaning chain with a RED node
    under a RED node, wherever the allocator places them. *)
Lemma ascending_inserts_red_red a1 a2 a3 :
  insert_tree a3 30 (insert_tree a2 20 (insert_tree a1 10 Leaf))
  = Node a1 BLACK 10 Leaf (Node a2 RED 20 Leaf (Node a3 RED 30 Leaf Leaf)) /\
  red_red (insert_tree a3 30 (insert_tree a2 20 (insert_tree a1 10 Leaf))) = true.
Proof. split; reflexivity. Qed.

(** ** The properties of the specification *)

(** Inserting is plain binary-search-tree insertion: the scenario of the
    three ascending keys, evaluated. *)
Lemma insert_10_20_30_run :
  exists lines,
    insert_all bump 8 NULL [10; 20; 30] empty_state
    = Done 4096 (mk_state chain_heap lines) /\
    lines =
      [ "tree validation failed.\n";
        "- paths have different number of black nodes (violates property 5)\n";
        "tree validation failed.\n";
        "- found red node with red child (violates properties 4/7)\n";
        "- paths have different number of black nodes (violates property 5)\n" ].
Proof. eexists. split; [vm_compute; reflexivity|reflexivity]. Qed.

Lemma chain_heap_rep : tree_rep chain_heap NULL chain_10_20_30.
Proof. vm_compute. repeat split; discriminate. Qed.

Lemma family_heap_run :
  exists lines,
    insert_all bump 8 NULL [20; 10; 30; 5] empty_state
    = Done 4096 (mk_state family_heap lines).
Proof. eexists. vm_compute. reflexivity. Qed.

Lemma pending_20_run :
  (root <- insert_node bump 8 NULL 10 ;; create_node bump 20) empty_state
  = Done 4136 pending_20_state.
Proof. vm_compute. reflexivity. Qed.

Lemma single_10_run :
  insert_all bump 8 NULL [10] empty_state
  = Done 4096 (mk_state (<[4096 := mk_node 10 NULL NULL NULL BLACK]> ∅) []).
Proof. vm_compute. reflexivity. Qed.

(** C1 (the code departs from the claim).  After insert_node has been
    called for 10, 20 and 30 on an empty tree, the stored tree is the chain
    10 (BLACK) -> 20 (RED) -> 30 (RED): a RED node has a RED child, and
    rb_validate_tree returns RB_RED_CHILD_OF_RED | RB_UNEQUAL_BLACK_PATHS
    instead of RB_VALID. *)
Theorem insert_sequence_leaves_violations :
  exists s,
    insert_all bump 8 NULL [10; 20; 30] empty_state = Done (root_of chain_10_20_30) s /\
    tree_rep (heap s) NULL chain_10_20_30 /\
    red_red chain_10_20_30 = true /\
    rb_validate_tree 8 (root_of chain_10_20_30) s
    = Done (Z.lor RB_RED_CHILD_OF_RED RB_UNEQUAL_BLACK_PATHS) s /\
    Z.lor RB_RED_CHILD_OF_RED RB_UNEQUAL_BLACK_PATHS <> RB_VALID.
Proof.
  destruct insert_10_20_30_run as (lines & Hrun & _).
  exists (mk_state chain_heap lines). split; [exact Hrun|].
  split; [exact chain_heap_rep|].
  split; [reflexivity|].
  split; [|discriminate].
  rewrite (validate_run chain_10_20_30 8 (mk_state chain_heap lines)).
  - reflexivity.
  - exact chain_heap_rep.
  - vm_compute. discriminate.
  - simpl. lia.
Qed.

(** C2 (the code departs from the claim).  Inserting 10, 20, 30 leaves 10
    at the root, BLACK, with no left child and 20 (RED) as its right child,
    which has 30 (RED) as its right child; no node holding 20 is the root,
    whatever addresses the balanced tree of the scenario is given. *)
Theorem insert_10_20_30_is_a_chain :
  exists s root,
    insert_all bump 8 NULL [10; 20; 30] empty_state = Done root s /\
    heap s !! root = Some (mk_node 10 NULL NULL 4136 BLACK) /\
    heap s !! 4136 = Some (mk_node 20 root NULL 4176 RED) /\
    heap s !! 4176 = Some (mk_node 30 4136 NULL NULL RED) /\
    forall a10 a20 a30,
      ~ (root = a20 /\ tree_rep (heap s) NULL (balanced_10_20_30 a10 a20 a30)).
Proof.
  destruct insert_10_20_30_run as (lines & Hrun & _).
  exists (mk_state chain_heap lines), 4096. split; [exact Hrun|].
  repeat split; try (vm_compute; reflexivity).
  intros a10 a20 a30 [<- Hrep].
  destruct Hrep as (_ & Hroot & _).
  vm_compute in Hroot. discriminate.
Qed.

(** C3 (the code departs from the claim).  search has an empty body: on the
    tree that holds 10, searching for 10 hands back nothing but the unit of
    a void function, exactly as searching for the absent key 99 does. *)
Theorem search_finds_nothing :
  exists s root,
    insert_all bump 8 NULL [10] empty_state = Done root s /\
    In 10 (keys single_10) /\ tree_rep (heap s) NULL single_10 /\
    search root 10 s = Done tt s /\
    search root 99 s = Done tt s.
Proof.
  eexists; exists 4096. split; [exact single_10_run|].
  split; [simpl; tauto|].
  split; [|split; reflexivity].
  vm_compute. repeat split; discriminate.
Qed.

(** C4 (the code departs from the claim).  On the one-node tree left by the
    first insertion both root-to-leaf paths contain one BLACK node, yet
    rb_validate_tree raises RB_UNEQUAL_BLACK_PATHS: rb_get_black_height
    stops before it counts the left-most node, so the budget is 0, not 1. *)
Theorem single_black_root_is_flagged :
  exists s,
    insert_all bump 8 NULL [10] empty_state = Done (root_of single_10) s /\
    tree_rep (heap s) NULL single_10 /\
    path_blacks single_10 = [1; 1] /\
    ~ unequal_paths single_10 /\
    rb_get_black_height 8 (root_of single_10) s = Done 0 s /\
    rb_validate_tree 8 (root_of single_10) s = Done RB_UNEQUAL_BLACK_PATHS s.
Proof.
  eexists. split; [exact single_10_run|].
  split; [vm_compute; repeat split; discriminate|].
  split; [reflexivity|].
  split; [|split; vm_compute; reflexivity].
  intros (x & y & Hx & Hy & Hxy). simpl in Hx, Hy. lia.
Qed.

(** *** Key comparison *)

Lemma find_insertion_point_by_address fuel :
  forall newnode current par s,
    find_insertion_point fuel newnode current par s
    = locate_insertion_point_by Z.compare fuel newnode current par s.
Proof.
  induction fuel as [|fuel IH]; intros newnode current par s; [reflexivity|].
  cbn [find_insertion_point locate_insertion_point_by].
  destruct (current =? NULL); [reflexivity|].
  unfold bind.
  destruct (load newnode s) as [n s1| | |]; try reflexivity.
  destruct (load current s1) as [c s2| | |]; try reflexivity.
  unfold Z.ltb, Z.gtb.
  destruct (key n ?= key c); auto.
Qed.

Lemma reverse_cmp_total : total_order_cmp reverse_cmp.
Proof.
  unfold total_order_cmp, reverse_cmp. repeat split.
  - intros H. apply Z.compare_eq_iff in H. congruence.
  - intros ->. apply Z.compare_refl.
  - intros a b. apply Z.compare_antisym.
  - intros a b c H1 H2. rewrite Z.compare_lt_iff in *. lia.
Qed.

(** C5, as stated, fails: the caller's order has no way into the descent.
    With the reversed address order, a total order, the comparator-driven
    insertion hangs 20 to the left of 10; rb_insert_node hangs it to the
    right. *)
Lemma rb_insert_node_ignores_caller_order :
  total_order_cmp reverse_cmp /\
  rb_insert_node 8 4096 4136 pending_20_state
  <> rb_insert_node_by reverse_cmp 8 4096 4136 pending_20_state.
Proof.
  split; [exact reverse_cmp_total|].
  intros H.
  apply (f_equal (fun r => match r with
                           | Done _ s => right <$> heap s !! 4096
                           | _ => None
                           end)) in H.
  vm_compute in H. discriminate.
Qed.

(** C5, amended.  Every key comparison of the insertion, in the descent and
    in the choice of the side the new node is hung on, is the built-in
    comparison of the two key addresses: rb_insert_node is the
    comparator-driven insertion at the address order, on every state. *)
Theorem rb_insert_node_compares_addresses :
  forall fuel root newnode s,
    rb_insert_node fuel root newnode s
    = rb_insert_node_by Z.compare fuel root newnode s.
Proof.
  intros fuel root newnode s.
  unfold rb_insert_node, rb_insert_node_by, bind.
  rewrite find_insertion_point_by_address.
  destruct (locate_insertion_point_by Z.compare fuel newnode root NULL s)
    as [[par|] s1| | |]; try reflexivity.
  destruct (set_parent newnode par s1) as [[] s2| | |]; try reflexivity.
  destruct (load newnode s2) as [n s3| | |]; try reflexivity.
  destruct (load par s3) as [p s4| | |]; try reflexivity.
  unfold Z.ltb. destruct (key n ?= key p); reflexivity.
Qed.

(** *** Invalid key *)

(** C6, as stated, fails: with a null key the call does not come back to
    its caller, not even on the empty tree. *)
Lemma insert_node_null_key_does_not_return :
  ~ exists r s', insert_node bump 8 NULL NULL empty_state = Done r s'.
Proof. intros (r & s' & H). vm_compute in H. discriminate. Qed.

(** C6, amended.  With a null key create_node allocates nothing and
    returns NULL; assert(newnode) then terminates the program, in the very
    state the call was entered in: no node has been created, linked or
    recoloured, and nothing is returned to the caller. *)
Theorem insert_node_null_key_aborts :
  forall malloc fuel root s,
    insert_node malloc fuel root NULL s = Aborted s.
Proof. intros malloc fuel root s. reflexivity. Qed.

(** *** Duplicate key *)

(** C7.  Inserting a key that the stored search tree already holds returns
    normally with the same root; the heap gains the unlinked block that
    create_node allocated and is otherwise the same, so the stored tree
    (addresses, links, keys, colours) is the one before the call. *)
Theorem insert_node_duplicate_key :
  forall malloc t k s a junk fuel,
    tree_rep (heap s) NULL t ->
    bst t ->
    In k (keys t) ->
    k <> NULL ->
    Z.of_nat (height t) <= INT_MAX ->
    malloc (heap s) = Some (a, junk) ->
    a <> NULL ->
    heap s !! a = None ->
    (height t < fuel)%nat ->
    exists s',
      insert_node malloc fuel (root_of t) k s = Done (root_of t) s' /\
      heap s' = <[a := mk_node k NULL NULL NULL (color junk)]> (heap s) /\
      (forall p n, heap s !! p = Some n -> heap s' !! p = Some n) /\
      tree_rep (heap s') NULL t.
Proof.
  intros malloc t k s a junk fuel Ht Hbst Hin Hk Hh Hm Ha Hfresh Hfuel.
  set (nn := mk_node k NULL NULL NULL (color junk)).
  set (s1 := mk_state (<[a := nn]> (heap s)) (out s)).
  assert (Ht1 : tree_rep (heap s1) NULL t)
    by (apply tree_rep_insert_fresh; assumption).
  assert (Hroot : root_of t <> NULL).
  { destruct t as [|ra rc rk rl rr]; [contradiction|]. simpl in Ht. tauto. }
  unfold insert_node.
  rewrite (bind_done _ _ _ _ _ (create_node_done malloc k s a junk Hk Hm Ha)).
  fold nn. fold s1.
  rewrite (eqb_NULL_false _ Ha). cbn [negb].
  rewrite (bind_done _ _ _ tt s1 eq_refl).
  rewrite (eqb_NULL_false _ Hroot).
  assert (Hins : rb_insert_node fuel (root_of t) a s1 = Done tt s1).
  { unfold rb_insert_node.
    rewrite (bind_done _ _ _ None s1); [reflexivity|].
    apply find_insertion_point_duplicate with nn; try assumption.
    - apply lookup_insert_eq.
    - lia. }
  rewrite (bind_done _ _ _ _ _ Hins).
  rewrite (bind_done _ _ _ _ _ (validate_run t fuel s1 Ht1 Hh Hfuel)).
  destruct (report_tail (validate t) (root_of t) s1) as [lines Htail].
  exists (mk_state (heap s1) (out s1 ++ lines)).
  split; [exact Htail|]. cbn [heap]. split; [reflexivity|].
  split; [|exact Ht1].
  intros p n Hp. subst s1. cbn [heap].
  rewrite lookup_insert_ne; [assumption|].
  intros ->. rewrite Hfresh in Hp. discriminate.
Qed.

Lemma chain_bst : bst chain_10_20_30.
Proof. simpl. repeat split; repeat constructor. Qed.

Lemma insert_node_duplicate_key_witness :
  exists s',
    insert_node bump 8 4096 20 chain_state = Done 4096 s' /\
    heap s' = <[4216 := mk_node 20 NULL NULL NULL 0]> chain_heap /\
    (forall p n, chain_heap !! p = Some n -> heap s' !! p = Some n) /\
    tree_rep (heap s') NULL chain_10_20_30.
Proof.
  apply (insert_node_duplicate_key bump chain_10_20_30 20 chain_state
           4216 (mk_node 0 0 0 0 0) 8).
  - exact chain_heap_rep.
  - exact chain_bst.
  - simpl. tauto.
  - discriminate.
  - vm_compute. discriminate.
  - vm_compute. reflexivity.
  - discriminate.
  - vm_compute. reflexivity.
  - simpl. lia.
Defined.

(** *** The uncle's colour *)

(** C8.  For a node z with a parent and a grandparent, rb_get_uncle_color
    returns BLACK when the other child slot of the grandparent is empty,
    and the colour stored in the node of that slot otherwise. *)
Theorem rb_get_uncle_color_of_sibling :
  forall s z nz np ng sib,
    heap s !! z = Some nz ->
    parent nz <> NULL ->
    heap s !! parent nz = Some np ->
    parent np <> NULL ->
    heap s !! parent np = Some ng ->
    sibling_of ng (parent nz) sib ->
    (sib = NULL -> rb_get_uncle_color z s = Done BLACK s) /\
    (forall u, sib <> NULL -> heap s !! sib = Some u ->
               rb_get_uncle_color z s = Done (color u) s).
Proof.
  intros s z nz np ng sib Hz Hp Hnp Hg Hng Hsib.
  assert (Hrun : rb_get_uncle_color z s
                 = (if sib =? NULL then ret BLACK
                    else u <- load sib ;; ret (color u)) s).
  { unfold rb_get_uncle_color.
    rewrite (bind_load _ _ _ _ Hz), (eqb_NULL_false _ Hp).
    rewrite (bind_load _ _ _ _ Hnp), (eqb_NULL_false _ Hg).
    rewrite (bind_load _ _ _ _ Hng).
    destruct Hsib as [[Hl ->]|[Hr ->]].
    - rewrite Hl, Z.eqb_refl. reflexivity.
    - destruct (Z.eqb_spec (left ng) (parent nz)) as [Hl|Hl]; [|reflexivity].
      rewrite Hr, <- Hl. reflexivity. }
  rewrite Hrun. split.
  - intros ->. reflexivity.
  - intros u Hs Hu. rewrite (eqb_NULL_false _ Hs).
    now rewrite (bind_load _ _ _ _ Hu).
Qed.

Lemma rb_get_uncle_color_of_sibling_witness :
  (4176 = NULL ->
   rb_get_uncle_color 4216 (mk_state family_heap [])
   = Done BLACK (mk_state family_heap [])) /\
  (forall u, 4176 <> NULL -> family_heap !! 4176 = Some u ->
             rb_get_uncle_color 4216 (mk_state family_heap [])
             = Done (color u) (mk_state family_heap [])).
Proof.
  apply (rb_get_uncle_color_of_sibling (mk_state family_heap []) 4216
           (mk_node 5 4136 NULL NULL RED)
           (mk_node 10 4096 4216 NULL RED)
           (mk_node 20 NULL 4136 4176 BLACK) 4176).
  - vm_compute. reflexivity.
  - discriminate.
  - vm_compute. reflexivity.
  - discriminate.
  - vm_compute. reflexivity.
  - left. split; reflexivity.
Defined.

Example rb_get_uncle_color_red_uncle :
  rb_get_uncle_color 4216 (mk_state family_heap [])
  = Done RED (mk_state family_heap []).
Proof. vm_compute. reflexivity. Qed.

Example rb_get_uncle_color_absent_uncle :
  rb_get_uncle_color 4176 chain_state = Done BLACK chain_state.
Proof. vm_compute. reflexivity. Qed.

Example rb_get_uncle_color_no_grandparent :
  rb_get_uncle_color 4136 chain_state = Done (-1) chain_state.
Proof. vm_compute. reflexivity. Qed.

(** *** The validator and the stubs *)

(** C9.  On every stored tree whose root has no parent, rb_validate_tree
    returns its violation set and the program state after the call is the
    state before it: no node's key, colour, parent link or child link has
    changed (and nothing was printed). *)
Theorem rb_validate_tree_leaves_tree_unchanged :
  forall t fuel s,
    tree_rep (heap s) NULL t ->
    Z.of_nat (height t) <= INT_MAX ->
    (height t < fuel)%nat ->
    rb_validate_tree fuel (root_of t) s = Done (validate t) s.
Proof. intros t fuel s. apply validate_run. Qed.

Lemma rb_validate_tree_leaves_tree_unchanged_witness :
  rb_validate_tree 8 (root_of chain_10_20_30) chain_state
  = Done (validate chain_10_20_30) chain_state.
Proof.
  apply (rb_validate_tree_leaves_tree_unchanged chain_10_20_30 8 chain_state).
  - exact chain_heap_rep.
  - vm_compute. discriminate.
  - simpl. lia.
Defined.

(** C10.  delete_node has an empty body: for every root, key and program
    state the call returns with the state it was entered in, whether or
    not the key is stored. *)
Theorem delete_node_changes_nothing :
  forall root val s, delete_node root val s = Done tt s.
Proof. intros root val s. reflexivity. Qed.

(** ** Further properties of the code *)

(** *** create_node and the failure of an allocation *)

(** X1.  With a non-null key and a successful allocation create_node
    returns the new block: it holds the key, its three links are NULL, its
    colour field is whatever the block contained (create_node does not set
    it), every other block is as before and nothing is printed. *)
Theorem create_node_fresh_block :
  forall malloc val s a junk,
    val <> NULL ->
    malloc (heap s) = Some (a, junk) ->
    a <> NULL ->
    exists s',
      create_node malloc val s = Done a s' /\
      heap s' !! a = Some (mk_node val NULL NULL NULL (color junk)) /\
      (forall p, p <> a -> heap s' !! p = heap s !! p) /\
      out s' = out s.
Proof.
  intros malloc val s a junk Hval Hm Ha.
  eexists. split; [apply (create_node_done malloc val s a junk Hval Hm Ha)|].
  cbn [heap out]. split; [apply lookup_insert_eq|]. split; [|reflexivity].
  intros p Hp. now rewrite lookup_insert_ne by congruence.
Qed.

Lemma create_node_fresh_block_witness :
  exists s',
    create_node bump 30 pending_20_state = Done 4176 s' /\
    heap s' !! 4176 = Some (mk_node 30 NULL NULL NULL 0) /\
    (forall p, p <> 4176 -> heap s' !! p = heap pending_20_state !! p) /\
    out s' = out pending_20_state.
Proof.
  apply (create_node_fresh_block bump 30 pending_20_state 4176
           (mk_node 0 0 0 0 0)).
  - discriminate.
  - vm_compute. reflexivity.
  - discriminate.
Defined.

(** X2.  create_node returns NULL and leaves the program state as it is
    when the key is null (malloc is not even called) or when malloc
    fails. *)
Theorem create_node_returns_null :
  forall malloc val s,
    val = NULL \/ malloc (heap s) = None ->
    create_node malloc val s = Done NULL s.
Proof.
  intros malloc val s [->|Hm]; [reflexivity|].
  unfold create_node. destruct (val =? NULL); [reflexivity|].
  assert (Hmn : malloc_node malloc s = Done NULL s)
    by (unfold malloc_node; now rewrite Hm).
  now rewrite (bind_done _ _ _ _ _ Hmn).
Qed.

Lemma create_node_returns_null_witness :
  create_node no_memory 10 chain_state = Done NULL chain_state.
Proof.
  apply (create_node_returns_null no_memory 10 chain_state).
  right. reflexivity.
Defined.

(** X3.  When malloc fails for a non-null key, insert_node does not return:
    assert(newnode) ends the program, with every node as it was and
    nothing printed. *)
Theorem insert_node_out_of_memory :
  forall malloc fuel root val s,
    val <> NULL ->
    malloc (heap s) = None ->
    insert_node malloc fuel root val s = Aborted s.
Proof. intros malloc fuel root val s. apply insert_node_allocation_failure. Qed.

Lemma insert_node_out_of_memory_witness :
  insert_node no_memory 8 4096 40 chain_state = Aborted chain_state.
Proof.
  apply (insert_node_out_of_memory no_memory 8 4096 40 chain_state).
  - discriminate.
  - reflexivity.
Defined.

(** *** The validator at its edges *)

(** X4.  rb_validate_tree never writes: on every heap, tree-shaped or not,
    and however the call ends, the heap is the one it started from, and a
    call that returns has printed nothing. *)
Theorem rb_validate_tree_never_writes :
  forall fuel root s,
    match rb_validate_tree fuel root s with
    | Done _ s' => s' = s
    | Aborted s' => heap s' = heap s
    | Undefined => True
    | OutOfFuel => True
    end.
Proof. intros fuel root s. apply rb_validate_tree_frame. Qed.

(** X5.  Called on a node that has a parent link, rb_validate_tree prints
    "root node has parent pointer!" and the assert(0) that follows ends the
    program; no violation set is produced. *)
Theorem rb_validate_tree_root_with_parent :
  forall fuel root n s,
    root <> NULL ->
    heap s !! root = Some n ->
    parent n <> NULL ->
    rb_validate_tree fuel root s
    = Aborted (mk_state (heap s) (out s ++ ["root node has parent pointer!\n"])).
Proof.
  intros fuel root n s Hroot Hn Hp. unfold rb_validate_tree.
  rewrite (eqb_NULL_false _ Hroot), (bind_load _ _ _ _ Hn).
  rewrite (eqb_NULL_false _ Hp). reflexivity.
Qed.

Lemma rb_validate_tree_root_with_parent_witness :
  rb_validate_tree 8 4136 chain_state
  = Aborted (mk_state (heap chain_state)
               (out chain_state ++ ["root node has parent pointer!\n"])).
Proof.
  apply (rb_validate_tree_root_with_parent 8 4136
           (mk_node 20 4096 NULL 4176 RED) chain_state).
  - discriminate.
  - vm_compute. reflexivity.
  - discriminate.
Defined.

(** *** The uncle's colour and rb_rebalance *)

(** X6.  rb_get_uncle_color returns -1, which is neither RED nor BLACK,
    for a node without parent and for a node whose parent has no parent. *)
Theorem rb_get_uncle_color_without_grandparent :
  forall s z nz,
    heap s !! z = Some nz ->
    parent nz = NULL \/
    (exists np, heap s !! parent nz = Some np /\ parent np = NULL) ->
    rb_get_uncle_color z s = Done (-1) s /\ -1 <> RED /\ -1 <> BLACK.
Proof.
  intros s z nz Hz Hcase. split; [|split; discriminate].
  unfold rb_get_uncle_color. rewrite (bind_load _ _ _ _ Hz).
  destruct (Z.eqb_spec (parent nz) NULL) as [E|E]; [reflexivity|].
  destruct Hcase as [E'|(np & Hnp & Hg)]; [contradiction|].
  rewrite (bind_load _ _ _ _ Hnp), Hg. reflexivity.
Qed.

Lemma rb_get_uncle_color_without_grandparent_witness :
  rb_get_uncle_color 4136 chain_state = Done (-1) chain_state /\
  -1 <> RED /\ -1 <> BLACK.
Proof.
  apply (rb_get_uncle_color_without_grandparent chain_state 4136
           (mk_node 20 4096 NULL 4176 RED)).
  - vm_compute. reflexivity.
  - right. exists (mk_node 10 NULL NULL 4136 BLACK).
    split; vm_compute; reflexivity.
Defined.

(** X7.  rb_rebalance repairs nothing: whatever the node and the heap, the
    call either returns with the program state untouched or has followed a
    dangling pointer. *)
Theorem rb_rebalance_changes_nothing :
  forall node s,
    rb_rebalance node s = Done tt s \/ rb_rebalance node s = Undefined.
Proof.
  intros node s.
  unfold rb_rebalance, rb_get_uncle_color, rb_color_flip, rb_rotate,
    bind, load, ret.
  repeat match goal with
         | |- context [match heap s !! ?p with _ => _ end] =>
             destruct (heap s !! p)
         | |- context [if ?b then _ else _] => destruct b
         end; auto.
Qed.

(** *** What each flag of the validator reports *)

Lemma has_flag_pow2 v i : 0 <= i -> has_flag v (2 ^ i) = Z.testbit v i.
Proof.
  intros Hi. unfold has_flag.
  destruct (Z.testbit v i) eqn:E.
  - apply negb_true_iff, Z.eqb_neq. intros H0.
    assert (Hb : Z.testbit (Z.land v (2 ^ i)) i = true).
    { rewrite Z.land_spec, E, Z.pow2_bits_eqb, Z.eqb_refl by assumption.
      reflexivity. }
    rewrite H0, Z.bits_0 in Hb. discriminate.
  - apply negb_false_iff, Z.eqb_eq, Z.bits_inj'. intros n Hn.
    rewrite Z.land_spec, Z.bits_0, Z.pow2_bits_eqb by assumption.
    destruct (Z.eqb_spec i n) as [<-|]; [now rewrite E|apply andb_false_r].
Qed.

Lemma raise_violation_bit_clear v f i :
  Z.testbit v i = false -> Z.testbit f i = false ->
  Z.testbit (raise_violation v f) i = false.
Proof.
  intros Hv Hf. unfold raise_violation.
  now rewrite Z.lor_spec, Z.land_spec, Hv, Hf.
Qed.

(** Bit 3 of the walk: some RED node has a RED child. *)
Lemma walk_red_red t :
  forall v bh,
    Z.testbit (fst (walk t v bh)) 3 = Z.testbit v 3 || red_red t.
Proof.
  induction t as [|a c k l IHl r IHr]; intros v bh.
  - cbn [walk fst red_red]. rewrite orb_false_r.
    destruct (negb (bh =? 0)); [|reflexivity].
    rewrite raise_violation_bit by lia. apply orb_false_r.
  - cbn [walk red_red]. rewrite IHr, IHl.
    match goal with |- Z.testbit ?v2 3 || _ || _ = _ =>
      assert (Hv2 : Z.testbit v2 3
                    = Z.testbit v 3 || ((c =? RED) && (red_root l || red_root r)))
    end.
    { destruct (c =? RED), (c =? BLACK), (red_root l || red_root r);
        cbn [negb andb orb];
        rewrite ?raise_violation_bit by lia;
        now rewrite ?orb_false_r. }
    rewrite Hv2. now rewrite !orb_assoc.
Qed.

(** Bit 0 of the walk: some colour field is neither RED nor BLACK. *)
Lemma walk_invalid_color t :
  forall v bh,
    Z.testbit (fst (walk t v bh)) 0 = Z.testbit v 0 || invalid_color t.
Proof.
  induction t as [|a c k l IHl r IHr]; intros v bh.
  - cbn [walk fst invalid_color]. rewrite orb_false_r.
    destruct (negb (bh =? 0)); [|reflexivity].
    rewrite raise_violation_bit by lia. apply orb_false_r.
  - cbn [walk invalid_color]. rewrite IHr, IHl.
    match goal with |- Z.testbit ?v2 0 || _ || _ = _ =>
      assert (Hv2 : Z.testbit v2 0
                    = Z.testbit v 0 || (negb (c =? RED) && negb (c =? BLACK)))
    end.
    { destruct (c =? RED), (c =? BLACK), (red_root l || red_root r);
        cbn [negb andb orb];
        rewrite ?raise_violation_bit by lia;
        now rewrite ?orb_false_r. }
    rewrite Hv2. now rewrite !orb_assoc.
Qed.

(** The walk leaves bits 1 and 2 as they are. *)
Lemma walk_keeps_bit t i :
  i = 1 \/ i = 2 ->
  forall v bh, Z.testbit (fst (walk t v bh)) i = Z.testbit v i.
Proof.
  intros Hi.
  induction t as [|a c k l IHl r IHr]; intros v bh.
  - cbn [walk fst]. destruct (negb (bh =? 0)); [|reflexivity].
    rewrite raise_violation_bit by lia.
    destruct Hi as [-> | ->]; apply orb_false_r.
  - cbn [walk]. rewrite IHr, IHl.
    destruct (c =? RED), (c =? BLACK), (red_root l || red_root r);
      cbn [negb andb orb];
      rewrite ?raise_violation_bit by lia;
      destruct Hi as [-> | ->]; now rewrite ?orb_false_r.
Qed.

(** The walk sets no bit above the five flags. *)
Lemma walk_high_bits t i :
  5 <= i ->
  forall v bh, Z.testbit v i = false -> Z.testbit (fst (walk t v bh)) i = false.
Proof.
  intros Hi.
  assert (Hflag : forall j, 0 <= j < 5 -> Z.testbit (2 ^ j) i = false).
  { intros j Hj. rewrite Z.pow2_bits_eqb by lia. apply Z.eqb_neq. lia. }
  pose proof (Hflag 0 ltac:(lia)) as H0.
  pose proof (Hflag 3 ltac:(lia)) as H3.
  pose proof (Hflag 4 ltac:(lia)) as H4.
  induction t as [|a c k l IHl r IHr]; intros v bh Hv.
  - cbn [walk fst]. destruct (negb (bh =? 0)); [|assumption].
    now apply raise_violation_bit_clear.
  - cbn [walk]. apply IHr, IHl.
    destruct (c =? RED), (c =? BLACK), (red_root l || red_root r);
      cbn [negb andb orb];
      repeat apply raise_violation_bit_clear; assumption.
Qed.

Lemma validate_red_root t : has_flag (validate t) RB_RED_ROOT = red_root t.
Proof.
  change RB_RED_ROOT with (2 ^ 1). rewrite has_flag_pow2 by lia.
  destruct t as [|a c k l r]; [reflexivity|].
  unfold validate. rewrite walk_keeps_bit by auto.
  destruct (red_root (Node a c k l r)); reflexivity.
Qed.

Lemma validate_red_red t :
  has_flag (validate t) RB_RED_CHILD_OF_RED = red_red t.
Proof.
  change RB_RED_CHILD_OF_RED with (2 ^ 3). rewrite has_flag_pow2 by lia.
  destruct t as [|a c k l r]; [reflexivity|].
  unfold validate. rewrite walk_red_red.
  destruct (red_root (Node a c k l r)); reflexivity.
Qed.

Lemma validate_invalid_color t :
  has_flag (validate t) RB_INVALID_COLOR = invalid_color t.
Proof.
  change RB_INVALID_COLOR with (2 ^ 0). rewrite has_flag_pow2 by lia.
  destruct t as [|a c k l r]; [reflexivity|].
  unfold validate. rewrite walk_invalid_color.
  destruct (red_root (Node a c k l r)); reflexivity.
Qed.

Lemma validate_unused_bits t :
  has_flag (validate t) RB_NULL_NOT_BLACK = false /\
  forall i, 5 <= i -> Z.testbit (validate t) i = false.
Proof.
  split.
  - change RB_NULL_NOT_BLACK with (2 ^ 2). rewrite has_flag_pow2 by lia.
    destruct t as [|a c k l r]; [reflexivity|].
    unfold validate. rewrite walk_keeps_bit by auto.
    destruct (red_root (Node a c k l r)); reflexivity.
  - intros i Hi. destruct t as [|a c k l r]; [apply Z.bits_0|].
    unfold validate. apply walk_high_bits; [assumption|].
    destruct (red_root (Node a c k l r)); [|apply Z.bits_0].
    apply raise_violation_bit_clear; [apply Z.bits_0|].
    change RB_RED_ROOT with (2 ^ 1). rewrite Z.pow2_bits_eqb by lia.
    apply Z.eqb_neq. lia.
Qed.

(** X8.  On a stored tree rb_validate_tree reports RB_RED_ROOT exactly when
    the colour field of the root is RED. *)
Theorem rb_validate_tree_red_root_flag :
  forall t fuel s,
    tree_rep (heap s) NULL t ->
    Z.of_nat (height t) <= INT_MAX ->
    (height t < fuel)%nat ->
    exists v,
      rb_validate_tree fuel (root_of t) s = Done v s /\
      has_flag v RB_RED_ROOT = red_root t.
Proof.
  intros t fuel s Ht Hh Hfuel. exists (validate t).
  split; [now apply validate_run|apply validate_red_root].
Qed.

Lemma rb_validate_tree_red_root_flag_witness :
  exists v,
    rb_validate_tree 8 (root_of chain_10_20_30) chain_state = Done v chain_state /\
    has_flag v RB_RED_ROOT = red_root chain_10_20_30.
Proof.
  apply (rb_validate_tree_red_root_flag chain_10_20_30 8 chain_state).
  - exact chain_heap_rep.
  - vm_compute. discriminate.
  - simpl. lia.
Defined.

(** X9.  On a stored tree rb_validate_tree reports RB_RED_CHILD_OF_RED
    exactly when some RED node of the tree has a RED child. *)
Theorem rb_validate_tree_red_child_flag :
  forall t fuel s,
    tree_rep (heap s) NULL t ->
    Z.of_nat (height t) <= INT_MAX ->
    (height t < fuel)%nat ->
    exists v,
      rb_validate_tree fuel (root_of t) s = Done v s /\
      has_flag v RB_RED_CHILD_OF_RED = red_red t.
Proof.
  intros t fuel s Ht Hh Hfuel. exists (validate t).
  split; [now apply validate_run|apply validate_red_red].
Qed.

Lemma rb_validate_tree_red_child_flag_witness :
  exists v,
    rb_validate_tree 8 (root_of chain_10_20_30) chain_state = Done v chain_state /\
    has_flag v RB_RED_CHILD_OF_RED = red_red chain_10_20_30.
Proof.
  apply (rb_validate_tree_red_child_flag chain_10_20_30 8 chain_state).
  - exact chain_heap_rep.
  - vm_compute. discriminate.
  - simpl. lia.
Defined.

(** X10.  On a stored tree rb_validate_tree reports RB_INVALID_COLOR
    exactly when some node's colour field is neither RED nor BLACK. *)
Theorem rb_validate_tree_invalid_color_flag :
  forall t fuel s,
    tree_rep (heap s) NULL t ->
    Z.of_nat (height t) <= INT_MAX ->
    (height t < fuel)%nat ->
    exists v,
      rb_validate_tree fuel (root_of t) s = Done v s /\
      has_flag v RB_INVALID_COLOR = invalid_color t.
Proof.
  intros t fuel s Ht Hh Hfuel. exists (validate t).
  split; [now apply validate_run|apply validate_invalid_color].
Qed.

Lemma rb_validate_tree_invalid_color_flag_witness :
  exists v,
    rb_validate_tree 8 (root_of chain_10_20_30) chain_state = Done v chain_state /\
    has_flag v RB_INVALID_COLOR = invalid_color chain_10_20_30.
Proof.
  apply (rb_validate_tree_invalid_color_flag chain_10_20_30 8 chain_state).
  - exact chain_heap_rep.
  - vm_compute. discriminate.
  - simpl. lia.
Defined.

(** X11.  rb_validate_tree never reports RB_NULL_NOT_BLACK, and its result
    has no bit set above the five flags. *)
Theorem rb_validate_tree_unused_flags :
  forall t fuel s,
    tree_rep (heap s) NULL t ->
    Z.of_nat (height t) <= INT_MAX ->
    (height t < fuel)%nat ->
    exists v,
      rb_validate_tree fuel (root_of t) s = Done v s /\
      has_flag v RB_NULL_NOT_BLACK = false /\
      forall i, 5 <= i -> Z.testbit v i = false.
Proof.
  intros t fuel s Ht Hh Hfuel. exists (validate t).
  split; [now apply validate_run|apply validate_unused_bits].
Qed.

Lemma rb_validate_tree_unused_flags_witness :
  exists v,
    rb_validate_tree 8 (root_of chain_10_20_30) chain_state = Done v chain_state /\
    has_flag v RB_NULL_NOT_BLACK = false /\
    forall i, 5 <= i -> Z.testbit v i = false.
Proof.
  apply (rb_validate_tree_unused_flags chain_10_20_30 8 chain_state).
  - exact chain_heap_rep.
  - vm_compute. discriminate.
  - simpl. lia.
Defined.

(** *** Black heights *)

Lemma path_blacks_nonempty t : path_blacks t <> [].
Proof.
  destruct t as [|a c k l r]; [discriminate|].
  simpl. destruct l as [|la lc lk ll lr]; [discriminate|].
  intros H. apply map_eq_nil in H. apply app_eq_nil in H as [H _].
  revert H. clear. generalize (Node la lc lk ll lr). intros t.
  induction t as [|a c k l IHl r _]; [discriminate|].
  simpl. intros H. apply map_eq_nil in H. apply app_eq_nil in H as [H _].
  now apply IHl.
Qed.

Lemma path_nonreds_valid t :
  invalid_color t = false -> path_nonreds t = path_blacks t.
Proof.
  induction t as [|a c k l IHl r IHr]; [reflexivity|].
  cbn [invalid_color path_nonreds path_blacks]. intros H.
  apply orb_false_iff in H as [H Hr]. apply orb_false_iff in H as [Hc Hl].
  rewrite IHl, IHr by assumption.
  apply map_ext. intros n.
  destruct (c =? RED) eqn:Er, (c =? BLACK) eqn:Eb; try reflexivity;
    try discriminate.
  apply Z.eqb_eq in Er, Eb. unfold RED, BLACK in *. lia.
Qed.

Lemma leftmost_color_valid t c :
  invalid_color t = false -> leftmost_color t = Some c -> c = RED \/ c = BLACK.
Proof.
  induction t as [|a c0 k l IHl r _]; [discriminate|].
  cbn [invalid_color leftmost_color]. intros H.
  apply orb_false_iff in H as [H Hr]. apply orb_false_iff in H as [Hc Hl].
  destruct l as [|la lc lk ll lr].
  - intros [= <-].
    destruct (Z.eqb_spec c0 RED); [now left|].
    destruct (Z.eqb_spec c0 BLACK); [now right|discriminate].
  - now apply IHl.
Qed.

(** The budget of rb_get_black_height misses the left-most node. *)
Lemma spine_budget_leftmost t :
  forall acc,
    hd 0 (path_nonreds t) + acc
    = spine_budget t acc
      + match leftmost_color t with
        | Some c => if c =? RED then 0 else 1
        | None => 0
        end.
Proof.
  induction t as [|a c k l IHl r _]; intros acc; [simpl; lia|].
  change (spine_budget (Node a c k l r) acc)
    with (match l with
          | Leaf => acc
          | Node _ _ _ _ _ =>
              spine_budget l (if negb (c =? RED) then acc + 1 else acc)
          end).
  change (leftmost_color (Node a c k l r))
    with (match l with
          | Leaf => Some c
          | Node _ _ _ _ _ => leftmost_color l
          end).
  cbn [path_nonreds].
  specialize (IHl (if negb (c =? RED) then acc + 1 else acc)).
  destruct l as [|la lc lk ll lr].
  - simpl. destruct (c =? RED); simpl; lia.
  - set (l := Node la lc lk ll lr) in *.
    assert (Hhd : hd 0 (map (fun n => (if negb (c =? RED) then 1 else 0) + n)
                          (path_nonreds l ++ path_nonreds r))
                  = (if negb (c =? RED) then 1 else 0) + hd 0 (path_nonreds l)).
    { destruct (path_nonreds l) as [|x xs] eqn:E; [|reflexivity].
      exfalso. subst l. simpl in E. apply map_eq_nil in E.
      apply app_eq_nil in E as [E _].
      clear -E. revert E. generalize ll. intros t.
      induction t as [|a c k l IHl r _]; [discriminate|].
      simpl. intros H. apply map_eq_nil in H. apply app_eq_nil in H as [H _].
      now apply IHl. }
    rewrite Hhd. destruct (c =? RED); cbn [negb] in *; lia.
Qed.

(** X12.  rb_get_black_height returns the number of non-RED nodes on the
    left-most root-to-leaf path without counting the left-most node: the
    result is one short of that number when the left-most node is not
    RED, and equal to it when it is RED. *)
Theorem rb_get_black_height_misses_leftmost :
  forall t fuel par s,
    t <> Leaf ->
    tree_rep (heap s) par t ->
    Z.of_nat (height t) <= INT_MAX ->
    (height t <= fuel)%nat ->
    exists b,
      rb_get_black_height fuel (root_of t) s = Done b s /\
      hd 0 (path_nonreds t)
      = b + match leftmost_color t with
            | Some c => if c =? RED then 0 else 1
            | None => 0
            end.
Proof.
  intros t fuel par s Hne Ht Hh Hfuel. exists (spine_budget t 0). split.
  - apply (spine_run t fuel par 0 s); try assumption; lia.
  - rewrite <- spine_budget_leftmost. lia.
Qed.

Lemma rb_get_black_height_misses_leftmost_witness :
  exists b,
    rb_get_black_height 8 (root_of family_tree) (mk_state family_heap [])
    = Done b (mk_state family_heap []) /\
    hd 0 (path_nonreds family_tree)
    = b + match leftmost_color family_tree with
          | Some c => if c =? RED then 0 else 1
          | None => 0
          end.
Proof.
  apply (rb_get_black_height_misses_leftmost family_tree 8 NULL
           (mk_state family_heap [])).
  - discriminate.
  - vm_compute. repeat split; discriminate.
  - vm_compute. discriminate.
  - simpl. lia.
Defined.

(** X13.  Detection is complete: on a stored tree in which two root-to-leaf
    paths contain different numbers of BLACK nodes, rb_validate_tree
    reports RB_UNEQUAL_BLACK_PATHS. *)
Theorem rb_validate_tree_flags_unequal_paths :
  forall t fuel s,
    tree_rep (heap s) NULL t ->
    Z.of_nat (height t) <= INT_MAX ->
    (height t < fuel)%nat ->
    unequal_paths t ->
    exists v,
      rb_validate_tree fuel (root_of t) s = Done v s /\
      has_flag v RB_UNEQUAL_BLACK_PATHS = true.
Proof.
  intros t fuel s Ht Hh Hfuel Hun. exists (validate t).
  split; [now apply validate_run|].
  change RB_UNEQUAL_BLACK_PATHS with (2 ^ 4). rewrite has_flag_pow2 by lia.
  apply validate_flags_unequal_paths; [|assumption].
  intros ->. destruct Hun as (x & y & Hx & Hy & Hxy). simpl in Hx, Hy. lia.
Qed.

Lemma lopsided_unequal_paths : unequal_paths lopsided_tree.
Proof. exists 1, 2. simpl. repeat split; auto; lia. Qed.

Lemma rb_validate_tree_flags_unequal_paths_witness :
  exists v,
    rb_validate_tree 8 (root_of lopsided_tree) (mk_state lopsided_heap [])
    = Done v (mk_state lopsided_heap []) /\
    has_flag v RB_UNEQUAL_BLACK_PATHS = true.
Proof.
  apply (rb_validate_tree_flags_unequal_paths lopsided_tree 8
           (mk_state lopsided_heap [])).
  - vm_compute. repeat split; discriminate.
  - vm_compute. discriminate.
  - simpl. lia.
  - exact lopsided_unequal_paths.
Defined.

(** X14.  On a stored tree whose colours are all RED or BLACK and whose
    root-to-leaf paths all contain the same number of BLACK nodes,
    rb_validate_tree reports RB_UNEQUAL_BLACK_PATHS exactly when the
    left-most node is BLACK. *)
Theorem rb_validate_tree_equal_paths_flag :
  forall t fuel s,
    t <> Leaf ->
    tree_rep (heap s) NULL t ->
    Z.of_nat (height t) <= INT_MAX ->
    (height t < fuel)%nat ->
    invalid_color t = false ->
    ~ unequal_paths t ->
    exists v,
      rb_validate_tree fuel (root_of t) s = Done v s /\
      (has_flag v RB_UNEQUAL_BLACK_PATHS = true <->
       leftmost_color t = Some BLACK).
Proof.
  intros t fuel s Hne Ht Hh Hfuel Hvalid Heq. exists (validate t).
  split; [now apply validate_run|].
  change RB_UNEQUAL_BLACK_PATHS with (2 ^ 4). rewrite has_flag_pow2 by lia.
  rewrite validate_flag_spec by assumption.
  pose proof (spine_budget_leftmost t 0) as Hb.
  rewrite (path_nonreds_valid t Hvalid) in Hb.
  pose proof (path_blacks_nonempty t) as Hnil.
  destruct (path_blacks t) as [|p ps] eqn:Ep; [congruence|]. cbn [hd] in Hb.
  assert (Hall : forall x, In x (p :: ps) -> x = p).
  { intros x Hx. destruct (Z.eq_dec x p) as [|Hxp]; [assumption|].
    exfalso. apply Heq. exists x, p. rewrite Ep.
    repeat split; [assumption|now left|assumption]. }
  assert (Hex : existsb (fun n => negb (n =? spine_budget t 0)) (p :: ps) = true
                <-> p <> spine_budget t 0).
  { rewrite existsb_exists. split.
    - intros (x & Hx & Hxb). rewrite <- (Hall x Hx).
      now apply Z.eqb_neq, negb_true_iff.
    - intros Hp. exists p. split; [now left|].
      now apply negb_true_iff, Z.eqb_neq. }
  rewrite Hex. clear Hex.
  destruct (leftmost_color t) as [c|] eqn:Ec.
  - destruct (leftmost_color_valid t c Hvalid Ec) as [-> | ->].
    + change (RED =? RED) with true in Hb. cbv iota in Hb.
      split; [intros Hp; lia|discriminate].
    + change (BLACK =? RED) with false in Hb. cbv iota in Hb.
      split; [reflexivity|intros _; lia].
  - split; [intros Hp; lia|discriminate].
Qed.

Lemma family_equal_paths : ~ unequal_paths family_tree.
Proof. intros (x & y & Hx & Hy & Hxy). simpl in Hx, Hy. lia. Qed.

Lemma rb_validate_tree_equal_paths_flag_witness :
  exists v,
    rb_validate_tree 8 (root_of family_tree) (mk_state family_heap [])
    = Done v (mk_state family_heap []) /\
    (has_flag v RB_UNEQUAL_BLACK_PATHS = true <->
     leftmost_color family_tree = Some BLACK).
Proof.
  apply (rb_validate_tree_equal_paths_flag family_tree 8
           (mk_state family_heap [])).
  - discriminate.
  - vm_compute. repeat split; discriminate.
  - vm_compute. discriminate.
  - simpl. lia.
  - reflexivity.
  - exact family_equal_paths.
Defined.

Lemma forallb_shift (b bh : Z) (l : list Z) :
  forallb (fun n => n =? bh) (map (fun n => b + n) l)
  = forallb (fun n => n =? bh - b) l.
Proof.
  induction l as [|x l IH]; [reflexivity|].
  simpl. rewrite IH. f_equal.
  destruct (Z.eqb_spec (b + x) bh), (Z.eqb_spec x (bh - b)); try reflexivity; lia.
Qed.

Lemma rb_validate_black_height_run t :
  forall fuel par bh s,
    tree_rep (heap s) par t ->
    INT_MIN <= bh - Z.of_nat (height t) ->
    (height t < fuel)%nat ->
    rb_validate_black_height fuel (root_of t) bh s
    = Done (forallb (fun n => n =? bh) (path_nonreds t)) s.
Proof.
  induction t as [|a c k l IHl r IHr]; intros fuel par bh s Ht Hbh Hfuel;
    (destruct fuel as [|fuel]; [lia|]).
  - cbn [rb_validate_black_height root_of path_nonreds forallb].
    change (NULL =? NULL) with true. cbv iota.
    now rewrite andb_true_r, (Z.eqb_sym 0 bh).
  - simpl in Ht. destruct Ht as (Ha & Hn & Hl & Hr).
    simpl height in Hbh, Hfuel.
    cbn [rb_validate_black_height root_of path_nonreds].
    rewrite (eqb_NULL_false _ Ha), (bind_load _ _ _ _ Hn).
    unfold IS_RED. cbn [color left right].
    set (nb := if negb (c =? RED) then 1 else 0).
    assert (Hdec : (if negb (c =? RED) then int_decr bh else ret bh) s
                   = Done (bh - nb) s).
    { subst nb. destruct (c =? RED); cbn [negb].
      - now rewrite Z.sub_0_r.
      - apply int_decr_done. lia. }
    rewrite (bind_done _ _ _ _ _ Hdec).
    assert (Hnb : 0 <= nb <= 1) by (subst nb; destruct (c =? RED); simpl; lia).
    rewrite (bind_done _ _ _ _ _
               (IHl fuel a (bh - nb) s Hl ltac:(lia) ltac:(lia))).
    rewrite forallb_shift, forallb_app.
    destruct (forallb (fun n => n =? bh - nb) (path_nonreds l)); [|reflexivity].
    apply (IHr fuel a (bh - nb) s Hr); lia.
Qed.

(** X15.  rb_validate_black_height answers true exactly when every
    root-to-leaf path of the stored tree contains [black_height] non-RED
    nodes. *)
Theorem rb_validate_black_height_exact :
  forall t fuel par bh s,
    tree_rep (heap s) par t ->
    INT_MIN <= bh - Z.of_nat (height t) ->
    (height t < fuel)%nat ->
    exists b,
      rb_validate_black_height fuel (root_of t) bh s = Done b s /\
      (b = true <-> forall n, In n (path_nonreds t) -> n = bh).
Proof.
  intros t fuel par bh s Ht Hbh Hfuel.
  eexists. split; [now apply (rb_validate_black_height_run t fuel par)|].
  rewrite forallb_forall. split.
  - intros H n Hn. now apply Z.eqb_eq, H.
  - intros H n Hn. now apply Z.eqb_eq, H.
Qed.

Lemma rb_validate_black_height_exact_witness :
  exists b,
    rb_validate_black_height 8 (root_of family_tree) 1 (mk_state family_heap [])
    = Done b (mk_state family_heap []) /\
    (b = true <-> forall n, In n (path_nonreds family_tree) -> n = 1).
Proof.
  apply (rb_validate_black_height_exact family_tree 8 NULL 1
           (mk_state family_heap [])).
  - vm_compute. repeat split; discriminate.
  - vm_compute. discriminate.
  - simpl. lia.
Defined.

(** *** Insertion: what the tree becomes *)

Lemma keys_bst_insert a k t :
  forall x, In x (keys (bst_insert a k t)) <-> x = k \/ In x (keys t).
Proof.
  induction t as [|b c y l IHl r IHr]; intros x.
  - simpl. intuition congruence.
  - cbn [bst_insert].
    destruct (Z.ltb_spec k y) as [Hlt|Hge].
    + cbn [keys]. rewrite !in_app_iff, IHl. simpl. tauto.
    + destruct (Z.gtb_spec k y) as [Hgt|Hle].
      * cbn [keys]. rewrite !in_app_iff. simpl. rewrite IHr. tauto.
      * assert (k = y) by lia. subst y.
        cbn [keys]. rewrite in_app_iff. simpl. intuition congruence.
Qed.

Lemma bst_insert_bst a k t : bst t -> bst (bst_insert a k t).
Proof.
  induction t as [|b c y l IHl r IHr]; intros Hb.
  - simpl. repeat split; constructor.
  - simpl in Hb. destruct Hb as (Hl & Hr & Hlt & Hgt).
    cbn [bst_insert].
    destruct (Z.ltb_spec k y) as [Hky|Hky].
    + simpl. repeat split; auto.
      rewrite Forall_forall in *. intros x Hx.
      apply list_elem_of_In, keys_bst_insert in Hx as [->|Hx]; [assumption|].
      now apply Hlt, list_elem_of_In.
    + destruct (Z.gtb_spec k y) as [Hgt'|Hle].
      * simpl. repeat split; auto.
        rewrite Forall_forall in *. intros x Hx.
        apply list_elem_of_In, keys_bst_insert in Hx as [->|Hx]; [assumption|].
        now apply Hgt, list_elem_of_In.
      * simpl. repeat split; auto.
Qed.

Lemma insert_tree_bst a k t : bst t -> bst (insert_tree a k t).
Proof.
  destruct t as [|b c y l r]; intros Hb.
  - simpl. repeat split; constructor.
  - now apply bst_insert_bst.
Qed.

Lemma keys_insert_tree a k t :
  forall x, In x (keys (insert_tree a k t)) <-> x = k \/ In x (keys t).
Proof.
  destruct t as [|b c y l r]; intros x.
  - simpl. intuition congruence.
  - apply keys_bst_insert.
Qed.

Lemma insert_tree_height a k t : (height (insert_tree a k t) <= S (height t))%nat.
Proof.
  destruct t as [|b c y l r]; [simpl; lia|apply bst_insert_height].
Qed.

(** Every node of a stored tree holds one of its keys. *)
Lemma addrs_key h t :
  forall par x,
    tree_rep h par t -> x ∈ addrs t ->
    exists n, h !! x = Some n /\ In (key n) (keys t).
Proof.
  induction t as [|a c k l IHl r IHr]; intros par x Ht Hx; simpl in *.
  - now apply elem_of_nil in Hx.
  - destruct Ht as (Ha & Hn & Hl & Hr).
    apply elem_of_cons in Hx as [->|Hx].
    + eexists. split; [eassumption|]. apply in_app_iff. right. now left.
    + apply elem_of_app in Hx as [Hx|Hx].
      * destruct (IHl a x Hl Hx) as (n & Hnx & Hk).
        exists n. split; [assumption|]. apply in_app_iff. now left.
      * destruct (IHr a x Hr Hx) as (n & Hnx & Hk).
        exists n. split; [assumption|]. apply in_app_iff. right. now right.
Qed.

(** The nodes of a stored search tree are pairwise distinct blocks. *)
Lemma bst_addrs_nodup h t :
  forall par, tree_rep h par t -> bst t -> NoDup (addrs t).
Proof.
  induction t as [|a c k l IHl r IHr]; intros par Ht Hb; [constructor|].
  pose proof (addrs_key h l a) as Hkl. pose proof (addrs_key h r a) as Hkr.
  simpl in Ht, Hb. destruct Ht as (Ha & Hn & Hl & Hr).
  destruct Hb as (Hbl & Hbr & Hlt & Hgt).
  rewrite Forall_forall in Hlt, Hgt.
  assert (Hless : forall x n, x ∈ addrs l -> h !! x = Some n -> key n < k).
  { intros x n Hx Hxn. destruct (Hkl x Hl Hx) as (n' & Hn' & Hk).
    rewrite Hxn in Hn'. injection Hn' as <-.
    now apply Hlt, list_elem_of_In. }
  assert (Hmore : forall x n, x ∈ addrs r -> h !! x = Some n -> k < key n).
  { intros x n Hx Hxn. destruct (Hkr x Hr Hx) as (n' & Hn' & Hk).
    rewrite Hxn in Hn'. injection Hn' as <-.
    now apply Hgt, list_elem_of_In. }
  cbn [addrs]. apply NoDup_cons. split.
  - intros Hin. apply elem_of_app in Hin as [Hin|Hin].
    + specialize (Hless a _ Hin Hn). simpl in Hless. lia.
    + specialize (Hmore a _ Hin Hn). simpl in Hmore. lia.
  - apply NoDup_app. repeat split; eauto.
    intros x Hxl Hxr.
    destruct (Hkl x Hl Hxl) as (n & Hxn & _).
    specialize (Hless x n Hxl Hxn). specialize (Hmore x n Hxr Hxn). lia.
Qed.

Lemma addrs_bst_insert a k t :
  forall x, x ∈ addrs (bst_insert a k t) -> x = a \/ x ∈ addrs t.
Proof.
  induction t as [|b c y l IHl r IHr]; intros x Hx.
  - simpl in Hx. apply elem_of_cons in Hx as [->|Hx]; [now left|].
    now apply elem_of_nil in Hx.
  - cbn [bst_insert] in Hx.
    destruct (k <? y).
    + cbn [addrs] in *. rewrite elem_of_cons, elem_of_app in *.
      destruct Hx as [->|[Hx|Hx]]; auto.
      destruct (IHl x Hx); auto.
    + destruct (k >? y); [|now right].
      cbn [addrs] in *. rewrite elem_of_cons, elem_of_app in *.
      destruct Hx as [->|[Hx|Hx]]; auto.
      destruct (IHr x Hx); auto.
Qed.

Lemma bst_insert_nodup a k t :
  NoDup (addrs t) -> a ∉ addrs t -> NoDup (addrs (bst_insert a k t)).
Proof.
  induction t as [|b c y l IHl r IHr]; intros Hnd Ha.
  - simpl. apply NoDup_singleton.
  - cbn [addrs] in Hnd, Ha.
    apply NoDup_cons in Hnd as [Hb Hnd].
    apply NoDup_app in Hnd as (Hndl & Hdisj & Hndr).
    rewrite elem_of_cons, elem_of_app in Ha.
    rewrite elem_of_app in Hb.
    cbn [bst_insert].
    destruct (k <? y).
    + cbn [addrs]. apply NoDup_cons. split.
      * rewrite elem_of_app. intros [Hx|Hx]; [|tauto].
        apply addrs_bst_insert in Hx as [->|Hx]; tauto.
      * apply NoDup_app. repeat split; [apply IHl; tauto| |assumption].
        intros x Hx Hxr. apply addrs_bst_insert in Hx as [->|Hx]; [tauto|].
        now apply (Hdisj x).
    + destruct (k >? y).
      * cbn [addrs]. apply NoDup_cons. split.
        -- rewrite elem_of_app. intros [Hx|Hx]; [tauto|].
           apply addrs_bst_insert in Hx as [->|Hx]; tauto.
        -- apply NoDup_app. repeat split; [assumption| |apply IHr; tauto].
           intros x Hxl Hx. apply addrs_bst_insert in Hx as [->|Hx]; [tauto|].
           now apply (Hdisj x).
      * cbn [addrs]. apply NoDup_cons. split.
        -- rewrite elem_of_app. tauto.
        -- now apply NoDup_app.
Qed.

(** The key just inserted is met by the next descent for it. *)
Lemma bst_insert_again a a' k t :
  bst_insert a' k (bst_insert a k t) = bst_insert a k t.
Proof.
  induction t as [|b c y l IHl r IHr].
  - simpl. now rewrite Z.ltb_irrefl, Z.gtb_ltb, Z.ltb_irrefl.
  - cbn [bst_insert].
    destruct (k <? y) eqn:Hlt.
    + cbn [bst_insert]. now rewrite Hlt, IHl.
    + destruct (k >? y) eqn:Hgt.
      * cbn [bst_insert]. now rewrite Hlt, Hgt, IHr.
      * cbn [bst_insert]. now rewrite Hlt, Hgt.
Qed.




(** X16.  insert_node is binary-search-tree insertion without any
    rebalancing: with a non-null key and a fresh block at [a], the heap
    afterwards stores the old tree with the node at [a] hung, RED, where
    the descent for the key ended (the first node becomes a BLACK root, a
    key already met changes nothing); the root pointer stays what it was
    for a non-empty tree, and blocks outside the tree other than [a] are
    untouched. *)
Theorem insert_node_is_plain_insertion :
  forall malloc t k s a junk fuel,
    tree_rep (heap s) NULL t ->
    NoDup (addrs t) ->
    k <> NULL ->
    Z.of_nat (height t) < INT_MAX ->
    malloc (heap s) = Some (a, junk) ->
    a <> NULL ->
    heap s !! a = None ->
    (S (height t) < fuel)%nat ->
    exists s',
      insert_node malloc fuel (root_of t) k s
      = Done (root_of (insert_tree a k t)) s' /\
      tree_rep (heap s') NULL (insert_tree a k t) /\
      (t <> Leaf -> root_of (insert_tree a k t) = root_of t) /\
      (forall x, x <> a -> x ∉ addrs t -> heap s' !! x = heap s !! x).
Proof.
  intros malloc t k s a junk fuel Ht Hnd Hk Hh Hm Ha Hfresh Hfuel.
  destruct (insert_node_run malloc t k s a junk fuel Ht Hnd Hk Hh Hm Ha Hfresh Hfuel)
    as (s' & Hrun & Ht' & Hsame).
  exists s'. repeat split; try assumption.
  intros Hne. destruct t as [|b c y l r]; [congruence|].
  apply bst_insert_root. discriminate.
Qed.

Lemma chain_nodup : NoDup (addrs chain_10_20_30).
Proof. apply (bst_addrs_nodup chain_heap _ NULL chain_heap_rep chain_bst). Qed.

Lemma insert_node_is_plain_insertion_witness :
  exists s',
    insert_node bump 8 (root_of chain_10_20_30) 25 chain_state
    = Done (root_of (insert_tree 4216 25 chain_10_20_30)) s' /\
    tree_rep (heap s') NULL (insert_tree 4216 25 chain_10_20_30) /\
    (chain_10_20_30 <> Leaf ->
     root_of (insert_tree 4216 25 chain_10_20_30) = root_of chain_10_20_30) /\
    (forall x, x <> 4216 -> x ∉ addrs chain_10_20_30 ->
               heap s' !! x = heap chain_state !! x).
Proof.
  apply (insert_node_is_plain_insertion bump chain_10_20_30 25 chain_state
           4216 (mk_node 0 0 0 0 0) 8).
  - exact chain_heap_rep.
  - exact chain_nodup.
  - discriminate.
  - vm_compute. reflexivity.
  - vm_compute. reflexivity.
  - discriminate.
  - vm_compute. reflexivity.
  - simpl. lia.
Defined.

(** X17.  insert_node keeps the search-tree order and adds exactly the key:
    on a stored search tree the heap afterwards stores a search tree whose
    keys are the old keys and the inserted one. *)
Theorem insert_node_keeps_search_order :
  forall malloc t k s a junk fuel,
    tree_rep (heap s) NULL t ->
    bst t ->
    k <> NULL ->
    Z.of_nat (height t) < INT_MAX ->
    malloc (heap s) = Some (a, junk) ->
    a <> NULL ->
    heap s !! a = None ->
    (S (height t) < fuel)%nat ->
    exists s' t',
      insert_node malloc fuel (root_of t) k s = Done (root_of t') s' /\
      tree_rep (heap s') NULL t' /\
      bst t' /\
      (forall x, In x (keys t') <-> x = k \/ In x (keys t)).
Proof.
  intros malloc t k s a junk fuel Ht Hb Hk Hh Hm Ha Hfresh Hfuel.
  pose proof (bst_addrs_nodup _ _ _ Ht Hb) as Hnd.
  destruct (insert_node_run malloc t k s a junk fuel Ht Hnd Hk Hh Hm Ha Hfresh Hfuel)
    as (s' & Hrun & Ht' & _).
  exists s', (insert_tree a k t). repeat split; try assumption.
  - now apply insert_tree_bst.
  - apply keys_insert_tree.
  - apply keys_insert_tree.
Qed.

Lemma insert_node_keeps_search_order_witness :
  exists s' t',
    insert_node bump 8 (root_of chain_10_20_30) 25 chain_state
    = Done (root_of t') s' /\
    tree_rep (heap s') NULL t' /\
    bst t' /\
    (forall x, In x (keys t') <-> x = 25 \/ In x (keys chain_10_20_30)).
Proof.
  apply (insert_node_keeps_search_order bump chain_10_20_30 25 chain_state
           4216 (mk_node 0 0 0 0 0) 8).
  - exact chain_heap_rep.
  - exact chain_bst.
  - discriminate.
  - vm_compute. reflexivity.
  - vm_compute. reflexivity.
  - discriminate.
  - vm_compute. reflexivity.
  - simpl. lia.
Defined.

(** X18.  Inserting the same key a second time stores the tree the first
    insertion left: the second call returns the same root and only
    allocates a block that stays unlinked. *)
Theorem insert_node_twice :
  forall malloc t k s a junk fuel,
    tree_rep (heap s) NULL t ->
    NoDup (addrs t) ->
    k <> NULL ->
    Z.of_nat (height t) + 1 < INT_MAX ->
    malloc (heap s) = Some (a, junk) ->
    a <> NULL ->
    heap s !! a = None ->
    (S (S (height t)) < fuel)%nat ->
    exists s1 t1,
      insert_node malloc fuel (root_of t) k s = Done (root_of t1) s1 /\
      tree_rep (heap s1) NULL t1 /\
      forall a2 junk2,
        malloc (heap s1) = Some (a2, junk2) ->
        a2 <> NULL ->
        heap s1 !! a2 = None ->
        exists s2,
          insert_node malloc fuel (root_of t1) k s1 = Done (root_of t1) s2 /\
          tree_rep (heap s2) NULL t1.
Proof.
  intros malloc t k s a junk fuel Ht Hnd Hk Hh Hm Ha Hfresh Hfuel.
  destruct (insert_node_run malloc t k s a junk fuel Ht Hnd Hk
              ltac:(lia) Hm Ha Hfresh ltac:(lia))
    as (s1 & Hrun & Ht1 & _).
  set (t1 := insert_tree a k t) in *.
  exists s1, t1. split; [assumption|]. split; [assumption|].
  intros a2 junk2 Hm2 Ha2 Hfresh2.
  assert (Hat : a ∉ addrs t) by (apply fresh_not_in_tree with (heap s) NULL; assumption).
  assert (Hnd1 : NoDup (addrs t1)).
  { subst t1. destruct t as [|b c y l r]; [apply NoDup_singleton|].
    now apply bst_insert_nodup. }
  pose proof (insert_tree_height a k t) as Hh1. fold t1 in Hh1.
  destruct (insert_node_run malloc t1 k s1 a2 junk2 fuel Ht1 Hnd1 Hk
              ltac:(lia) Hm2 Ha2 Hfresh2 ltac:(lia))
    as (s2 & Hrun2 & Ht2 & _).
  assert (Hidem : insert_tree a2 k t1 = t1).
  { subst t1. destruct t as [|b c y l r].
    - simpl. now rewrite Z.ltb_irrefl, Z.gtb_ltb, Z.ltb_irrefl.
    - unfold insert_tree at 2. cbv iota.
      destruct (bst_insert a k (Node b c y l r)) as [|b' c' y' l' r'] eqn:E.
      + exfalso. revert E. cbn [bst_insert].
        destruct (k <? y); [discriminate|]. destruct (k >? y); discriminate.
      + unfold insert_tree. cbv iota. rewrite <- E. apply bst_insert_again. }
  rewrite Hidem in Hrun2, Ht2.
  exists s2. split; assumption.
Qed.

Lemma insert_node_twice_witness :
  exists s1 t1,
    insert_node bump 8 (root_of chain_10_20_30) 25 chain_state
    = Done (root_of t1) s1 /\
    tree_rep (heap s1) NULL t1 /\
    forall a2 junk2,
      bump (heap s1) = Some (a2, junk2) ->
      a2 <> NULL ->
      heap s1 !! a2 = None ->
      exists s2,
        insert_node bump 8 (root_of t1) 25 s1 = Done (root_of t1) s2 /\
        tree_rep (heap s2) NULL t1.
Proof.
  apply (insert_node_twice bump chain_10_20_30 25 chain_state
           4216 (mk_node 0 0 0 0 0) 8).
  - exact chain_heap_rep.
  - exact chain_nodup.
  - discriminate.
  - vm_compute. reflexivity.
  - vm_compute. reflexivity.
  - discriminate.
  - vm_compute. reflexivity.
  - simpl. lia.
Defined.

(** *** Insertion: what it never touches *)

Lemma bind_inv {A B} (m : M A) (k : A -> M B) s b s2 :
  bind m k s = Done b s2 -> exists a s1, m s = Done a s1 /\ k a s1 = Done b s2.
Proof.
  unfold bind. destruct (m s) as [a s1| | |]; try discriminate.
  intros E. now exists a, s1.
Qed.

Lemma linked_to_refl a n : linked_to a n n.
Proof. unfold linked_to. tauto. Qed.

(** On any heap: when the descent stops below a node, the link it followed
    last is NULL. *)
Lemma find_insertion_point_exit fuel :
  forall nn cur par s p s',
    find_insertion_point fuel nn cur par s = Done (Some p) s' ->
    s' = s /\
    ((cur = NULL /\ p = par) \/
     exists n pn,
       heap s !! nn = Some n /\ heap s !! p = Some pn /\
       ((key n < key pn /\ left pn = NULL) \/
        (key pn < key n /\ ~ key n < key pn /\ right pn = NULL))).
Proof.
  induction fuel as [|fuel IH]; intros nn cur par s p s' H; [discriminate|].
  cbn [find_insertion_point] in H.
  destruct (Z.eqb_spec cur NULL) as [Hc|Hc].
  - injection H as <- <-. auto.
  - unfold bind at 1, load at 1 in H.
    destruct (heap s !! nn) as [n|] eqn:Hn; [|discriminate].
    unfold bind at 1, load at 1 in H.
    destruct (heap s !! cur) as [c|] eqn:Hcur; [|discriminate].
    destruct (Z.ltb_spec (key n) (key c)) as [Hlt|Hge].
    + apply IH in H as [-> [[Hnull ->]|Hdeep]]; (split; [reflexivity|]).
      * right. exists n, c. auto.
      * right. rewrite Hn in Hdeep. exact Hdeep.
    + destruct (Z.gtb_spec (key n) (key c)) as [Hgt|Hle]; [|discriminate].
      apply IH in H as [-> [[Hnull ->]|Hdeep]]; (split; [reflexivity|]).
      * right. exists n, c. split; [reflexivity|]. split; [assumption|].
        right. repeat split; [lia|lia|assumption].
      * right. rewrite Hn in Hdeep. exact Hdeep.
Qed.

(** On any heap: a call of rb_insert_node that returns has kept the key,
    the colour and the parent link of every node other than the new one,
    and has changed no child link except, at most, one NULL link that now
    points to the new node. *)
Lemma rb_insert_node_links fuel root nn s s' :
  root <> NULL ->
  rb_insert_node fuel root nn s = Done tt s' ->
  forall x nx,
    x <> nn -> heap s !! x = Some nx ->
    exists nx', heap s' !! x = Some nx' /\ linked_to nn nx nx'.
Proof.
  intros Hroot H x nx Hx Hnx. unfold rb_insert_node in H.
  apply bind_inv in H as (found & s1 & Hfind & H).
  destruct found as [p|].
  - apply find_insertion_point_exit in Hfind
      as [-> [[Hc _]|(n & pn & Hn & Hpn & Hside)]]; [contradiction|].
    assert (Hp : p <> nn).
    { intros ->. rewrite Hn in Hpn. injection Hpn as <-. lia. }
    rewrite (bind_done _ _ _ _ _ (set_parent_done s nn n p Hn)) in H.
    set (s1 := mk_state _ _) in H.
    assert (Hn1 : heap s1 !! nn = Some (mk_node (key n) p (left n) (right n) (color n)))
      by apply lookup_insert_eq.
    assert (Hp1 : heap s1 !! p = Some pn)
      by (subst s1; cbn [heap]; now rewrite lookup_insert_ne).
    rewrite (bind_load _ _ _ _ Hn1), (bind_load _ _ _ _ Hp1) in H. cbn [key] in H.
    set (pn' := if key n <? key pn
                then mk_node (key pn) (parent pn) nn (right pn) (color pn)
                else mk_node (key pn) (parent pn) (left pn) nn (color pn)).
    assert (Hlink :
      (if key n <? key pn then set_left p nn else set_right p nn) s1
      = Done tt (mk_state (<[p := pn']> (heap s1)) (out s1))).
    { subst pn'. destruct (key n <? key pn).
      - now apply set_left_done.
      - now apply set_right_done. }
    rewrite (bind_done _ _ _ _ _ Hlink) in H.
    set (s2 := mk_state (<[p := pn']> (heap s1)) (out s1)) in H.
    assert (Hn2 : heap s2 !! nn = Some (mk_node (key n) p (left n) (right n) (color n)))
      by (subst s2; cbn [heap]; rewrite lookup_insert_ne; [assumption|congruence]).
    rewrite (set_color_done s2 nn _ RED Hn2) in H.
    injection H as <-. subst s2 s1. cbn [heap].
    rewrite lookup_insert_ne by congruence.
    destruct (Z.eq_dec x p) as [->|Hxp].
    + rewrite lookup_insert_eq. rewrite Hpn in Hnx. injection Hnx as <-.
      eexists. split; [reflexivity|]. subst pn'. unfold linked_to.
      destruct Hside as [[Hlt Hl]|(Hgt & Hnlt & Hr)].
      * apply Z.ltb_lt in Hlt. rewrite Hlt. cbn. auto 10.
      * apply Z.ltb_nlt in Hnlt. rewrite Hnlt. cbn. auto 10.
    + rewrite !lookup_insert_ne by congruence.
      exists nx. split; [assumption|apply linked_to_refl].
  - injection H as <-.
    pose proof (find_insertion_point_read_only fuel nn root NULL s) as Hro.
    rewrite Hfind in Hro. subst s1.
    exists nx. split; [assumption|apply linked_to_refl].
Qed.

(** On any heap: the same for a call of insert_node that returns. *)
Lemma insert_node_links malloc fuel root k s a junk r s' :
  k <> NULL ->
  malloc (heap s) = Some (a, junk) ->
  a <> NULL ->
  heap s !! a = None ->
  insert_node malloc fuel root k s = Done r s' ->
  forall x nx,
    heap s !! x = Some nx ->
    exists nx', heap s' !! x = Some nx' /\ linked_to a nx nx'.
Proof.
  intros Hk Hm Ha Hfresh H x nx Hnx.
  assert (Hxa : x <> a) by (intros ->; congruence).
  unfold insert_node in H.
  rewrite (bind_done _ _ _ _ _ (create_node_done malloc k s a junk Hk Hm Ha)) in H.
  set (nn := mk_node k NULL NULL NULL (color junk)) in H.
  set (s1 := mk_state (<[a := nn]> (heap s)) (out s)) in H.
  rewrite (eqb_NULL_false _ Ha) in H. cbn [negb] in H.
  rewrite (bind_done _ _ _ tt s1 eq_refl) in H.
  assert (Hnew : heap s1 !! a = Some nn) by apply lookup_insert_eq.
  assert (Hx1 : heap s1 !! x = Some nx)
    by (subst s1; cbn [heap]; now rewrite lookup_insert_ne by congruence).
  destruct (Z.eqb_spec root NULL) as [Hroot|Hroot].
  - rewrite (bind_done _ _ _ _ _ (set_color_done s1 a nn BLACK Hnew)) in H.
    injection H as <- <-. cbn [heap].
    exists nx. split; [|apply linked_to_refl].
    now rewrite lookup_insert_ne by congruence.
  - apply bind_inv in H as ([] & s2 & Hins & H).
    apply bind_inv in H as (v & s3 & Hval & H).
    pose proof (rb_validate_tree_frame fuel root s2) as Hframe.
    rewrite Hval in Hframe. subst s3.
    destruct (report_tail v root s2) as [lines Htail].
    rewrite Htail in H. injection H as <- <-. cbn [heap].
    now apply (rb_insert_node_links fuel root a s1 s2 Hroot Hins).
Qed.

(** X19.  insert_node never recolours, re-keys or re-parents a node and
    never frees one: after an insertion on a stored tree every block that
    was allocated is still allocated with the same key, colour and parent
    link, and each of its child links is the same too, unless it was NULL
    and now points to the new node. *)
Theorem insert_node_never_recolours :
  forall malloc t k s a junk fuel,
    tree_rep (heap s) NULL t ->
    NoDup (addrs t) ->
    k <> NULL ->
    Z.of_nat (height t) < INT_MAX ->
    malloc (heap s) = Some (a, junk) ->
    a <> NULL ->
    heap s !! a = None ->
    (S (height t) < fuel)%nat ->
    exists r s',
      insert_node malloc fuel (root_of t) k s = Done r s' /\
      forall x nx,
        heap s !! x = Some nx ->
        exists nx', heap s' !! x = Some nx' /\ linked_to a nx nx'.
Proof.
  intros malloc t k s a junk fuel Ht Hnd Hk Hh Hm Ha Hfresh Hfuel.
  destruct (insert_node_run malloc t k s a junk fuel Ht Hnd Hk Hh Hm Ha Hfresh Hfuel)
    as (s' & Hrun & _).
  eexists _, s'. split; [exact Hrun|].
  exact (insert_node_links malloc fuel (root_of t) k s a junk _ s'
           Hk Hm Ha Hfresh Hrun).
Qed.

Lemma insert_node_never_recolours_witness :
  exists r s',
    insert_node bump 8 (root_of chain_10_20_30) 25 chain_state = Done r s' /\
    forall x nx,
      heap chain_state !! x = Some nx ->
      exists nx', heap s' !! x = Some nx' /\ linked_to 4216 nx nx'.
Proof.
  apply (insert_node_never_recolours bump chain_10_20_30 25 chain_state
           4216 (mk_node 0 0 0 0 0) 8).
  - exact chain_heap_rep.
  - exact chain_nodup.
  - discriminate.
  - vm_compute. reflexivity.
  - vm_compute. reflexivity.
  - discriminate.
  - vm_compute. reflexivity.
  - simpl. lia.
Defined.

(** *** Sequences of insertions *)




(** *** What insert_node prints *)

Lemma report_tail_lines (violations : Z) (root : ptr) s :
  (if violations =? RB_VALID then
     printf "tree is a valid rb tree\n" ;;
     ret root
   else
     printf "tree validation failed.\n" ;;
     report violations RB_RED_ROOT
       "- root is red (violates property 2)\n" ;;
     report violations RB_RED_CHILD_OF_RED
       "- found red node with red child (violates properties 4/7)\n" ;;
     report violations RB_UNEQUAL_BLACK_PATHS
       "- paths have different number of black nodes (violates property 5)\n" ;;
     report violations RB_INVALID_COLOR
       "- found node with invalid color (violates property 1)\n" ;;
     report violations RB_NULL_NOT_BLACK
       "- found null leaf that isn't black (violates property 3)\n" ;;
     ret root) s
  = Done root (mk_state (heap s) (out s ++ report_lines violations)).
Proof.
  unfold report_lines, has_flag.
  destruct (violations =? RB_VALID); [reflexivity|].
  unfold report.
  destruct (negb (Z.land violations RB_RED_ROOT =? 0));
  destruct (negb (Z.land violations RB_RED_CHILD_OF_RED =? 0));
  destruct (negb (Z.land violations RB_UNEQUAL_BLACK_PATHS =? 0));
  destruct (negb (Z.land violations RB_INVALID_COLOR =? 0));
  destruct (negb (Z.land violations RB_NULL_NOT_BLACK =? 0));
  unfold bind, printf, ret; cbn [heap out app];
  rewrite <- ?app_assoc; reflexivity.
Qed.

(** X21.  The first insertion prints nothing (the one-node tree is not
    validated).  Every later insertion with a non-null key validates the
    tree it leaves and prints one report: "tree is a valid rb tree" when
    no flag was raised, otherwise "tree validation failed." followed by
    one line per raised flag, in the order red root, red child, black
    paths, invalid colour, null leaf. *)
Theorem insert_node_prints_report :
  forall malloc t k s a junk fuel,
    tree_rep (heap s) NULL t ->
    NoDup (addrs t) ->
    k <> NULL ->
    Z.of_nat (height t) < INT_MAX ->
    malloc (heap s) = Some (a, junk) ->
    a <> NULL ->
    heap s !! a = None ->
    (S (height t) < fuel)%nat ->
    exists r s',
      insert_node malloc fuel (root_of t) k s = Done r s' /\
      out s' = out s ++ match t with
                        | Leaf => []
                        | Node _ _ _ _ _ =>
                            report_lines (validate (insert_tree a k t))
                        end.
Proof.
  intros malloc t k s a junk fuel Ht Hnd Hk Hh Hm Ha Hfresh Hfuel.
  set (nn := mk_node k NULL NULL NULL (color junk)).
  set (s1 := mk_state (<[a := nn]> (heap s)) (out s)).
  unfold insert_node.
  rewrite (bind_done _ _ _ _ _ (create_node_done malloc k s a junk Hk Hm Ha)).
  fold nn. fold s1.
  rewrite (eqb_NULL_false _ Ha). cbn [negb].
  rewrite (bind_done _ _ _ tt s1 eq_refl).
  assert (Hnew : heap s1 !! a = Some nn) by apply lookup_insert_eq.
  destruct t as [|b c x l r].
  - cbn [root_of]. change (NULL =? NULL) with true. cbv iota.
    rewrite (bind_done _ _ _ _ _ (set_color_done s1 a nn BLACK Hnew)).
    eexists _, _. split; [reflexivity|]. cbn [out]. now rewrite app_nil_r.
  - set (t := Node b c x l r) in *.
    assert (Hroot : root_of t <> NULL) by (simpl in Ht; tauto).
    assert (Hat : a ∉ addrs t) by (apply fresh_not_in_tree with (heap s) NULL; assumption).
    assert (Ht1 : tree_rep (heap s1) NULL t)
      by (apply tree_rep_insert_fresh; assumption).
    rewrite (eqb_NULL_false _ Hroot).
    destruct (rb_insert_node_run t fuel s1 a k (color junk) Ht1
                ltac:(discriminate) Hnd Hnew Hat Ha ltac:(lia))
      as (s2 & Hins & Hout & Ht2 & _).
    rewrite (bind_done _ _ _ _ _ Hins).
    assert (Hroot2 : root_of t = root_of (bst_insert a k t))
      by (symmetry; apply bst_insert_root; discriminate).
    pose proof (bst_insert_height a k t) as Hh2.
    assert (Hval : rb_validate_tree fuel (root_of t) s2
                   = Done (validate (bst_insert a k t)) s2).
    { rewrite Hroot2. apply validate_run; [assumption| |lia].
      unfold INT_MAX in *. lia. }
    rewrite (bind_done _ _ _ _ _ Hval).
    rewrite report_tail_lines.
    eexists _, _. split; [reflexivity|]. cbn [out].
    rewrite Hout. reflexivity.
Qed.

Lemma insert_node_prints_report_witness :
  exists r s',
    insert_node bump 8 (root_of chain_10_20_30) 25 chain_state = Done r s' /\
    out s' = out chain_state
             ++ report_lines (validate (insert_tree 4216 25 chain_10_20_30)).
Proof.
  apply (insert_node_prints_report bump chain_10_20_30 25 chain_state
           4216 (mk_node 0 0 0 0 0) 8).
  - exact chain_heap_rep.
  - exact chain_nodup.
  - discriminate.
  - vm_compute. reflexivity.
  - vm_compute. reflexivity.
  - discriminate.
  - vm_compute. reflexivity.
  - simpl. lia.
Defined.

(** *** Validation of the trees that insertion builds *)

Lemma all_red_color t a c k l r :
  t = Node a c k l r -> all_red t = true ->
  c = RED /\ all_red l = true /\ all_red r = true.
Proof.
  intros -> H. cbn [all_red] in H.
  apply andb_true_iff in H as [H Hr]. apply andb_true_iff in H as [Hc Hl].
  apply Z.eqb_eq in Hc. auto.
Qed.

Lemma all_red_valid t : all_red t = true -> invalid_color t = false.
Proof.
  induction t as [|a c k l IHl r IHr]; intros H; [reflexivity|].
  destruct (all_red_color _ a c k l r eq_refl H) as (-> & Hl & Hr).
  cbn [invalid_color]. now rewrite IHl, IHr.
Qed.

Lemma all_red_paths t :
  all_red t = true -> forall n, In n (path_blacks t) -> n = 0.
Proof.
  induction t as [|a c k l IHl r IHr]; intros H n Hn.
  - simpl in Hn. intuition.
  - destruct (all_red_color _ a c k l r eq_refl H) as (-> & Hl & Hr).
    cbn [path_blacks] in Hn. apply in_map_iff in Hn as (m & <- & Hm).
    apply in_app_iff in Hm as [Hm|Hm]; [rewrite (IHl Hl m Hm)|rewrite (IHr Hr m Hm)];
      reflexivity.
Qed.

Lemma all_red_spine t :
  all_red t = true -> forall acc, spine_budget t acc = acc.
Proof.
  induction t as [|a c k l IHl r _]; intros H acc; [reflexivity|].
  destruct (all_red_color _ a c k l r eq_refl H) as (-> & Hl & Hr).
  change (spine_budget (Node a RED k l r) acc)
    with (match l with
          | Leaf => acc
          | Node _ _ _ _ _ =>
              spine_budget l (if negb (RED =? RED) then acc + 1 else acc)
          end).
  destruct l; [reflexivity|]. now rewrite IHl.
Qed.

Lemma all_red_red_root t : all_red t = true -> red_root t = negb (height t =? 0)%nat.
Proof.
  destruct t as [|a c k l r]; [reflexivity|]. intros H.
  destruct (all_red_color _ a c k l r eq_refl H) as (-> & _). reflexivity.
Qed.

Lemma all_red_red_red t :
  all_red t = true -> (red_red t = true <-> (2 <= height t)%nat).
Proof.
  induction t as [|a c k l IHl r IHr]; intros H.
  - simpl. split; [discriminate|lia].
  - destruct (all_red_color _ a c k l r eq_refl H) as (-> & Hl & Hr).
    cbn [red_red height]. change (RED =? RED) with true. cbn [andb].
    rewrite !orb_true_iff, (IHl Hl), (IHr Hr).
    rewrite (all_red_red_root l Hl), (all_red_red_root r Hr).
    rewrite !negb_true_iff, !Nat.eqb_neq. lia.
Qed.

(** A tree coloured as insertion colours it passes the validator only when
    it has two levels and its root has a left child. *)
Lemma validate_insert_colored a c k l r :
  insert_colored (Node a c k l r) ->
  (validate (Node a c k l r) = RB_VALID <->
   l <> Leaf /\ (height (Node a c k l r) <= 2)%nat).
Proof.
  intros (-> & Hl & Hr). set (t := Node a BLACK k l r).
  assert (Hred : red_red t = true <-> (3 <= height t)%nat).
  { subst t. cbn [red_red height]. change (BLACK =? RED) with false.
    cbn [andb orb]. rewrite orb_true_iff, (all_red_red_red l Hl),
      (all_red_red_red r Hr). lia. }
  assert (Hbit4 : Z.testbit (validate t) 4 = true <-> l = Leaf).
  { rewrite validate_flag_spec by discriminate.
    assert (Hpaths : forall n, In n (path_blacks t) -> n = 1).
    { intros n Hn. subst t. cbn [path_blacks] in Hn.
      apply in_map_iff in Hn as (m & <- & Hm).
      apply in_app_iff in Hm as [Hm|Hm];
        [rewrite (all_red_paths l Hl m Hm)|rewrite (all_red_paths r Hr m Hm)];
        reflexivity. }
    assert (Hbudget : spine_budget t 0 = if red_root l then 1 else 0).
    { subst t. destruct l as [|la lc lk ll lr]; [reflexivity|].
      change (spine_budget (Node a BLACK k (Node la lc lk ll lr) r) 0)
        with (spine_budget (Node la lc lk ll lr) 1).
      rewrite (all_red_spine _ Hl), (all_red_red_root _ Hl). reflexivity. }
    rewrite Hbudget, (all_red_red_root l Hl).
    pose proof (path_blacks_nonempty t) as Hne.
    destruct (path_blacks t) as [|p ps] eqn:Ep; [congruence|].
    rewrite existsb_exists. split.
    - intros (x & Hx & Hxb). rewrite (Hpaths x Hx) in Hxb.
      destruct l; [reflexivity|simpl in Hxb; discriminate].
    - intros ->. exists p. split; [now left|].
      rewrite (Hpaths p (or_introl eq_refl)). reflexivity. }
  pose proof (validate_red_red t) as H3.
  pose proof (validate_invalid_color t) as H0.
  pose proof (validate_red_root t) as H1.
  destruct (validate_unused_bits t) as [H2 Hhigh].
  change RB_RED_CHILD_OF_RED with (2 ^ 3) in H3.
  change RB_INVALID_COLOR with (2 ^ 0) in H0.
  change RB_RED_ROOT with (2 ^ 1) in H1.
  change RB_NULL_NOT_BLACK with (2 ^ 2) in H2.
  rewrite has_flag_pow2 in H0, H1, H2, H3 by lia.
  assert (Hinv : invalid_color t = false).
  { subst t. cbn [invalid_color]. now rewrite (all_red_valid l Hl), (all_red_valid r Hr). }
  rewrite Hinv in H0. change (red_root t) with false in H1.
  split.
  - intros Hv. rewrite Hv in H3, Hbit4. rewrite Z.bits_0 in H3, Hbit4. split.
    + intros E. apply Hbit4 in E. discriminate.
    + destruct (red_red t); [discriminate|].
      destruct (le_lt_dec (height t) 2) as [|Hgt]; [assumption|].
      apply Hred in Hgt. discriminate.
  - intros [Hne Hle]. apply Z.bits_inj'. intros i Hi. rewrite Z.bits_0.
    assert (Hcase : i = 0 \/ i = 1 \/ i = 2 \/ i = 3 \/ i = 4 \/ 5 <= i) by lia.
    destruct Hcase as [->|[->|[->|[->|[->|Hge]]]]]; try assumption.
    + rewrite H3. destruct (red_red t); [|reflexivity].
      assert (3 <= height t)%nat by now apply Hred. lia.
    + destruct (Z.testbit (validate t) 4); [|reflexivity].
      exfalso. apply Hne. now apply Hbit4.
    + now apply Hhigh.
Qed.

(** X22.  A stored non-empty tree with a BLACK root and all other nodes
    RED, which is what insertions alone build, is accepted by
    rb_validate_tree (result RB_VALID) exactly when its root has a left
    child and no node lies below the root's children. *)
Theorem rb_validate_tree_accepts_inserted :
  forall a c k l r fuel s,
    tree_rep (heap s) NULL (Node a c k l r) ->
    insert_colored (Node a c k l r) ->
    Z.of_nat (height (Node a c k l r)) <= INT_MAX ->
    (height (Node a c k l r) < fuel)%nat ->
    exists v,
      rb_validate_tree fuel a s = Done v s /\
      (v = RB_VALID <-> l <> Leaf /\ (height (Node a c k l r) <= 2)%nat).
Proof.
  intros a c k l r fuel s Ht Hc Hh Hfuel.
  exists (validate (Node a c k l r)). split.
  - now apply (validate_run (Node a c k l r)).
  - now apply validate_insert_colored.
Qed.

Lemma trio_heap_run :
  exists lines,
    insert_all bump 8 NULL [20; 10; 30] empty_state
    = Done 4096 (mk_state trio_heap lines).
Proof. eexists. vm_compute. reflexivity. Qed.

Lemma rb_validate_tree_accepts_inserted_witness :
  exists v,
    rb_validate_tree 8 4096 (mk_state trio_heap []) = Done v (mk_state trio_heap []) /\
    (v = RB_VALID <->
     Node 4136 RED 10 Leaf Leaf <> Leaf /\ (height trio_tree <= 2)%nat).
Proof.
  apply (rb_validate_tree_accepts_inserted 4096 BLACK 20
           (Node 4136 RED 10 Leaf Leaf) (Node 4176 RED 30 Leaf Leaf) 8
           (mk_state trio_heap [])).
  - vm_compute. repeat split; discriminate.
  - simpl. auto.
  - vm_compute. discriminate.
  - simpl. lia.
Defined.
